(** * eslint-bot: diff-position mapping, finding aggregation, comment emission

  A shallow embedding of [src/server.js] (and of the two other revisions of
  the same file kept beside it) together with the properties its
  specification states about them.

  Modelling conventions.
  - A JavaScript string is a [string]; the operations used by the program
    ([split] on the newline, [line[0]], the two regular expressions) only
    look at ASCII characters, so they act on bytes as they act on UTF-16
    code units.
  - A JavaScript number holding an integer is a [Z]. Doubles are exact on
    the integers up to 2^53 and round above; the statements that depend on
    the value of a line number carry that bound ([safeHeaders]), and
    [counters_in_safe_range] shows the counters stay within it.
  - A plain object used as a dictionary with numeric keys ([lineMap]) is a
    [gmap Z Z]; the object keyed by ['.' + line], whose key order is
    observed through [Object.keys], is an insertion-ordered association
    list.
  - A thrown exception is the [Threw] case of [completion].
  - Calls to the GitHub client are the output of the function that makes
    them, in call order. *)

From Stdlib Require Import ZArith Ascii String List Lia Bool.
From Stdlib Require Import DecimalString DecimalZ Sorted.
From stdpp Require Import base option list gmap strings.

Local Open Scope Z_scope.
Local Open Scope string_scope.

(** ** Completions: a value, or a thrown exception *)

Inductive JsError : Type :=
| TypeError.

Inductive completion (A : Type) : Type :=
| Returned (a : A)
| Threw (e : JsError).

Arguments Returned {A} a.
Arguments Threw {A} e.

Definition bind {A B : Type} (c : completion A) (k : A -> completion B)
  : completion B :=
  match c with
  | Returned a => k a
  | Threw e => Threw e
  end.

Notation "'try!' x ':=' c 'in' k" := (bind c (fun x => k))
  (at level 10, x name, c at level 100, k at level 200).

(** ** The string operations the program uses *)

Module JsString.

Definition newline : ascii := "010"%char.

(** The separator ['\n'] as a string. *)
Definition nl : string := String newline EmptyString.

(** [s.split('\n')]: never empty; the empty string gives one empty piece. *)
Fixpoint split (s : string) : list string :=
  match s with
  | EmptyString => [EmptyString]
  | String c r =>
      if Ascii.eqb c newline then EmptyString :: split r
      else match split r with
           | l :: ls => String c l :: ls
           | [] => [String c EmptyString]
           end
  end.

(** [a.join(sep)] on an array of strings. *)
Fixpoint join (sep : string) (a : list string) : string :=
  match a with
  | [] => EmptyString
  | [x] => x
  | x :: rest => x ++ sep ++ join sep rest
  end.

(** [s[0]]: [None] stands for [undefined]. *)
Definition charAt0 (s : string) : option ascii :=
  match s with
  | EmptyString => None
  | String c _ => Some c
  end.

(** [s.slice(1)] *)
Definition slice1 (s : string) : string :=
  match s with
  | EmptyString => EmptyString
  | String _ r => r
  end.

Definition isDigit (c : ascii) : bool :=
  let n := nat_of_ascii c in (48 <=? n)%nat && (n <=? 57)%nat.

Definition digitValue (c : ascii) : Z := Z.of_nat (nat_of_ascii c) - 48.

(** The numeric value of a string of decimal digits (what the coercion in
    [digits - 1] computes on such a string, leading zeros included), as
    long as it is at most 2^53; above, the coercion rounds to a double and
    this exact value is not what the program holds. *)
Fixpoint toNumberFrom (acc : Z) (s : string) : Z :=
  match s with
  | EmptyString => acc
  | String c r => toNumberFrom (10 * acc + digitValue c) r
  end.

Definition toNumber (s : string) : Z := toNumberFrom 0 s.

(** [/^@@.*/]: the line starts with two at-signs ([.*] may match nothing). *)
Definition matchHunkHeader (s : string) : bool :=
  match s with
  | String "@" (String "@" _) => true
  | _ => false
  end.

(** The longest run of digits at the front of [s] (the greedy [[0-9]+]). *)
Fixpoint takeDigits (s : string) : string :=
  match s with
  | EmptyString => EmptyString
  | String c r => if isDigit c then String c (takeDigits r) else EmptyString
  end.

Definition startsWithDigit (s : string) : bool :=
  match s with
  | EmptyString => false
  | String c _ => isDigit c
  end.

(** [s.match(/\+[0-9]+/)]: [None] for [null], otherwise element [0] of the
    match, the leftmost plus sign followed by a digit, with all the digits
    after it. *)
Fixpoint matchPlusDigits (s : string) : option string :=
  match s with
  | EmptyString => None
  | String c r =>
      if Ascii.eqb c "+"%char && startsWithDigit r
      then Some (String c (takeDigits r))
      else matchPlusDigits r
  end.

End JsString.

(** ** PatchParser: [getLineMapFromPatchString] (server.js, lines 64-81) *)

Module PatchParser.
Import JsString.

(** The two counters captured by the callback and the accumulator of the
    [reduce]. *)
Record ParserState : Type := mkState {
  diffLineIndex : Z;
  fileLineIndex : Z;
  lineMap : gmap Z Z
}.

Definition initial : ParserState := mkState 0 0 ∅.

Definition firstCharIs (c : ascii) (line : string) : bool :=
  match charAt0 line with
  | Some c' => Ascii.eqb c' c
  | None => false
  end.

(** [line.match(/\+[0-9]+/)[0].slice(1)], read as a number *)
Definition hunkNewStart (line : string) : completion Z :=
  match matchPlusDigits line with
  | None => Threw TypeError
  | Some m => Returned (toNumber (slice1 m))
  end.

(** The callback given to [reduce]. The two counters are exact integers:
    they are the program's doubles as long as they stay within 2^53, which
    [counters_in_safe_range] shows of the patches with [safeHeaders]. *)
Definition reducer (st : ParserState) (line : string)
  : completion ParserState :=
  if matchHunkHeader line then
    try! start := hunkNewStart line in
    Returned (mkState (diffLineIndex st) (start - 1) (lineMap st))
  else
    let d := diffLineIndex st + 1 in
    if negb (firstCharIs "-" line) then
      let f := fileLineIndex st + 1 in
      if firstCharIs "+" line
      then Returned (mkState d f (<[f := d]> (lineMap st)))
      else Returned (mkState d f (lineMap st))
    else Returned (mkState d (fileLineIndex st) (lineMap st)).

(** [lines.reduce(reducer, st)] *)
Fixpoint runLines (st : ParserState) (lines : list string)
  : completion ParserState :=
  match lines with
  | [] => Returned st
  | l :: rest => try! st' := reducer st l in runLines st' rest
  end.

Definition getLineMapFromPatchString (patchString : string)
  : completion (gmap Z Z) :=
  try! st := runLines initial (split patchString) in
  Returned (lineMap st).

End PatchParser.

(** *** The lines of a patch, and the counters of the parser in closed form *)

Module PatchSpec.
Import JsString PatchParser.

(** "The line begins with [p]". *)
Definition beginsWith (p line : string) : Prop := exists rest, line = p ++ rest.

Definition isHunkHeaderLine (line : string) : Prop := beginsWith "@@" line.
Definition isAdditionLine (line : string) : Prop := beginsWith "+" line.
Definition isDeletionLine (line : string) : Prop := beginsWith "-" line.

(** "The line contains a '+' immediately followed by a decimal digit". *)
Definition declaresNewStart (line : string) : Prop :=
  exists before d after,
    line = before ++ String "+" (String d after) /\ isDigit d = true.

(** Every line that begins with "@@" declares a new-file start. *)
Definition headersWellFormed (patchString : string) : Prop :=
  forall line, In line (split patchString) ->
    isHunkHeaderLine line -> declaresNewStart line.

(** The start the parser reads on a line that begins with "@@" (its own
    reading: the first '+' followed by digits, wherever it is). *)
Definition startRead (header : string) : option Z :=
  match hunkNewStart header with
  | Returned n => Some n
  | Threw _ => None
  end.

(** The hunk a position is in, given the lines [pre] before it: the last
    hunk header of [pre] (if there is one) and the lines after it. *)
Fixpoint currentHunk (pre : list string) : option string * list string :=
  match pre with
  | [] => (None, [])
  | l :: rest =>
      match currentHunk rest with
      | (Some h, body) => (Some h, body)
      | (None, body) =>
          if matchHunkHeader l then (Some l, body) else (None, l :: body)
      end
  end.

(** The lines of [body] the parser counts as lines of the file: every line
    that does not begin with '-', whatever else it begins with. *)
Definition countedLines (body : list string) : Z :=
  Z.of_nat (length (filter (fun l => negb (firstCharIs "-" l)) body)).

(** The context lines (beginning with a space) and the addition lines of
    [body], and the hunks whose lines all have one of the three prefixes. *)
Definition contextAndAdditionLines (body : list string) : Z :=
  Z.of_nat (length (filter (fun l => firstCharIs " " l || firstCharIs "+" l) body)).

Definition prefixedLine (l : string) : bool :=
  firstCharIs " " l || firstCharIs "+" l || firstCharIs "-" l.

(** The value [fileLineIndex] takes on a body line, not a deletion, that
    comes right after [pre]: the start read on the last header, plus the
    lines counted since that header. Before any header the count starts at
    1. This is the parser's own numbering, in closed form. *)
Definition nextFileLine (pre : list string) : option Z :=
  match currentHunk pre with
  | (Some h, body) => (fun start => start + countedLines body) <$> startRead h
  | (None, body) => Some (1 + countedLines body)
  end.

(** The diff display position of a body line that comes right after [pre]:
    one more than the number of body (non-header) lines of [pre]. *)
Definition diffPosition (pre : list string) : Z :=
  1 + Z.of_nat (length (filter (fun l => negb (matchHunkHeader l)) pre)).

(** The assignments [lineMap[fileLineIndex] = diffLineIndex] executed while
    the lines are reduced from state [st], in execution order. *)
Fixpoint recorded (st : ParserState) (lines : list string) : list (Z * Z) :=
  match lines with
  | [] => []
  | l :: rest =>
      match reducer st l with
      | Returned st' =>
          (if negb (matchHunkHeader l) && firstCharIs "+" l
           then [(fileLineIndex st', diffLineIndex st')] else [])
          ++ recorded st' rest
      | Threw _ => []
      end
  end.

Definition assign (m : gmap Z Z) (kv : Z * Z) : gmap Z Z := <[kv.1 := kv.2]> m.

(** The four line classes, as a case analysis. *)
Inductive LineClass (line : string) : Prop :=
| IsHeader : matchHunkHeader line = true -> LineClass line
| IsDeletion :
    matchHunkHeader line = false -> firstCharIs "-" line = true ->
    firstCharIs "+" line = false -> LineClass line
| IsAddition :
    matchHunkHeader line = false -> firstCharIs "-" line = false ->
    firstCharIs "+" line = true -> LineClass line
| IsOther :
    matchHunkHeader line = false -> firstCharIs "-" line = false ->
    firstCharIs "+" line = false -> LineClass line.

(** The check of [headersWellFormed], line by line. *)
Definition headerOk (line : string) : bool :=
  implb (matchHunkHeader line)
    (match matchPlusDigits line with Some _ => true | None => false end).

Definition headersOk (lines : list string) : bool := forallb headerOk lines.

(** Scenario 1 of the specification. *)
Definition scenario1 : string :=
  "@@ -1,2 +1,3 @@" ++ String newline " context"
  ++ String newline "+added line" ++ String newline " context2".

(** Scenario 2: a second hunk, after a first one with five body lines. *)
Definition scenario2_firstHunk : list string :=
  ["@@ -1,4 +1,5 @@"; " a"; "-b"; "+B"; "+C"; " d"].

Definition scenario2_header : string := "@@ -10,2 +12,3 @@".

(** The state after the first hunk and the second header, and after one
    more addition line. *)
Definition scenario2_lines : list string :=
  (scenario2_firstHunk ++ [scenario2_header])%list.

Definition scenario2_before : ParserState :=
  mkState 5 11 {[ 2 := 3; 3 := 4 ]}.

Definition scenario2_after : ParserState :=
  mkState 6 12 {[ 2 := 3; 3 := 4; 12 := 6 ]}.

Definition malformed : string := "@@ malformed @@".

(** No character of [s] is a plus sign; every character of [s] is a digit. *)
Fixpoint noPlus (s : string) : bool :=
  match s with
  | EmptyString => true
  | String c r => negb (Ascii.eqb c "+"%char) && noPlus r
  end.

Fixpoint allDigits (s : string) : bool :=
  match s with
  | EmptyString => true
  | String c r => isDigit c && allDigits r
  end.

End PatchSpec.

(** ** FindingAggregator: the [reduce] of [sendComments] (server.js, lines
    137-149), which is [groupLintErrorsByLine] in the revision that names it *)

Module Aggregator.
Import JsString.

(** The [ruleId] property of an ESLint message: missing, [null] (what ESLint
    reports for a parse error) or a string. *)
Inductive RuleId : Type :=
| RuleUndefined
| RuleNull
| RuleString (s : string).

Record LintError : Type := mkLintError {
  ruleId : RuleId;
  message : string;
  line : Z
}.

(** [{ line, message }] *)
Record LineGroup : Type := mkLineGroup {
  groupLine : Z;
  groupMessage : string
}.

(** An object whose keys are not array indices: [Object.keys] lists them in
    the order they were first assigned. *)
Fixpoint objGet {V : Type} (o : list (string * V)) (k : string) : option V :=
  match o with
  | [] => None
  | (k', v) :: rest => if String.eqb k' k then Some v else objGet rest k
  end.

Fixpoint objSet {V : Type} (o : list (string * V)) (k : string) (v : V)
  : list (string * V) :=
  match o with
  | [] => [(k, v)]
  | (k', v') :: rest =>
      if String.eqb k' k then (k', v) :: rest else (k', v') :: objSet rest k v
  end.

Definition objKeys {V : Type} (o : list (string * V)) : list string :=
  map fst o.

(** An integer converted to a string, as in ['.' + line]. *)
Definition numberToString (n : Z) : string :=
  NilZero.string_of_int (Z.to_int n).

Definition getKey (line : Z) : string := "." ++ numberToString line.

(** [ruleId] as it is printed by the template, after the default
    [ruleId = 'Eslint'] of the destructuring, which applies to a missing
    property only. *)
Definition ruleLabel (r : RuleId) : string :=
  match r with
  | RuleUndefined => "Eslint"
  | RuleNull => "null"
  | RuleString s => s
  end.

(** The template [`**${ruleId}**: ${message}`] *)
Definition entry (e : LintError) : string :=
  "**" ++ ruleLabel (ruleId e) ++ "**: " ++ message e.

(** The callback given to [reduce]. *)
Definition groupReducer (acc : list (string * LineGroup)) (lintError : LintError)
  : completion (list (string * LineGroup)) :=
  let key := getKey (line lintError) in
  let acc1 :=
    match objGet acc key with
    | Some _ => acc
    | None => objSet acc key (mkLineGroup (line lintError) EmptyString)
    end in
  match objGet acc1 key with
  | Some g =>
      Returned (objSet acc1 key
        (mkLineGroup (groupLine g)
           (join nl ([groupMessage g] ++ [entry lintError]))))
  | None => Threw TypeError
  end.

Fixpoint reduceFrom (acc : list (string * LineGroup)) (lintErrors : list LintError)
  : completion (list (string * LineGroup)) :=
  match lintErrors with
  | [] => Returned acc
  | e :: rest => try! acc' := groupReducer acc e in reduceFrom acc' rest
  end.

Definition groupLintErrorsByLine (lintErrors : list LintError)
  : completion (list (string * LineGroup)) :=
  reduceFrom [] lintErrors.

(** What the specification says the body of the group of line [n] is: the
    entries of the findings on that line, in arrival order, joined by
    newlines. *)
Definition findingsOn (n : Z) (lintErrors : list LintError) : list LintError :=
  filter (fun e => Z.eqb (line e) n) lintErrors.

Definition specBody (n : Z) (lintErrors : list LintError) : string :=
  join nl (map entry (findingsOn n lintErrors)).

(** What the code builds: every entry preceded by a newline. *)
Definition codeBody (n : Z) (lintErrors : list LintError) : string :=
  String.concat EmptyString
    (map (fun e => nl ++ entry e) (findingsOn n lintErrors)).

(** Two findings on line 3, rules "A" then "B". *)
Definition findingsAB : list LintError :=
  [mkLintError (RuleString "A") "mA" 3; mkLintError (RuleString "B") "mB" 3].

End Aggregator.

(** *** The same [reduce] on a store of objects

    The array elements, the accumulator and the [{ line, message }] objects
    are cells of a store, named by references; the callback reads the cell of
    the finding it is given, and writes the cell of the accumulator and the
    cells of the groups it created. *)

Module AggregatorStore.
Import JsString Aggregator.

Abbreviation ref := positive.

Inductive cell : Type :=
| FindingCell (e : LintError)
| GroupCell (g : LineGroup)
| DictCell (d : list (string * ref)).

(** [new] object: a reference that is not in use. *)
Definition alloc (h : gmap ref cell) (c : cell) : gmap ref cell * ref :=
  let r := fresh (dom h) in (<[r := c]> h, r).

Definition groupReducerOn (h : gmap ref cell) (acc : ref) (lintError : ref)
  : completion (gmap ref cell) :=
  match h !! lintError with
  | Some (FindingCell e) =>
      let key := getKey (line e) in
      match h !! acc with
      | Some (DictCell d) =>
          (* if (!acc[key]) acc[key] = { line, message: '' } *)
          let '(h1, d1) :=
            match objGet d key with
            | Some _ => (h, d)
            | None =>
                let '(h', g) := alloc h (GroupCell (mkLineGroup (line e) EmptyString)) in
                let d' := objSet d key g in
                (<[acc := DictCell d']> h', d')
            end in
          (* acc[key].message = [acc[key].message].concat(...).join('\n') *)
          match objGet d1 key with
          | Some g =>
              match h1 !! g with
              | Some (GroupCell grp) =>
                  Returned (<[g := GroupCell
                     (mkLineGroup (groupLine grp)
                        (join nl ([groupMessage grp] ++ [entry e])))]> h1)
              | _ => Threw TypeError
              end
          | None => Threw TypeError
          end
      | _ => Threw TypeError
      end
  | _ => Threw TypeError
  end.

Fixpoint reduceOn (h : gmap ref cell) (acc : ref) (lintErrors : list ref)
  : completion (gmap ref cell) :=
  match lintErrors with
  | [] => Returned h
  | r :: rest => try! h' := groupReducerOn h acc r in reduceOn h' acc rest
  end.

(** The call: a new [{}] for the accumulator, then the [reduce]; the result
    is the reference of the accumulator, in the store the call leaves. *)
Definition groupLintErrorsByLineOn (h : gmap ref cell) (lintErrors : list ref)
  : completion (gmap ref cell * ref) :=
  let '(h0, acc) := alloc h (DictCell []) in
  try! h' := reduceOn h0 acc lintErrors in
  Returned (h', acc).

(** The findings an array of references holds. *)
Definition findingAt (h : gmap ref cell) (r : ref) : option LintError :=
  match h !! r with
  | Some (FindingCell e) => Some e
  | _ => None
  end.

Definition findingsOf (h : gmap ref cell) (lintErrors : list ref)
  : option (list LintError) :=
  mapM (findingAt h) lintErrors.

(** The groups a dictionary cell holds, read through its references. *)
Definition groupAt (h : gmap ref cell) (kr : string * ref)
  : option (string * LineGroup) :=
  match h !! kr.2 with
  | Some (GroupCell g) => Some (kr.1, g)
  | _ => None
  end.

Definition groupsOf (h : gmap ref cell) (acc : ref)
  : option (list (string * LineGroup)) :=
  match h !! acc with
  | Some (DictCell d) => mapM (groupAt h) d
  | _ => None
  end.

(** The dictionary [d] read in the store [h] gives the groups [groups]. *)
Definition holds (h : gmap ref cell) (d : list (string * ref))
  (groups : list (string * LineGroup)) : Prop :=
  Forall2 (fun kr kg => groupAt h kr = Some kg) d groups.

(** The store [h] of a [reduce] under way from the store [h0]: the
    accumulator is a dictionary that gives [groups], its groups are objects
    of their own, made since [h0], and what [h0] held is as it was. *)
Definition underWay (h0 h : gmap ref cell) (acc : ref)
  (groups : list (string * LineGroup)) : Prop :=
  exists d,
    h !! acc = Some (DictCell d) /\
    holds h d groups /\
    NoDup (map snd d) /\
    Forall (fun kr : string * ref => (kr.2 ∉ dom h0) /\ (kr.2 <> acc)) d /\
    (forall r, r ∈ dom h0 -> h !! r = h0 !! r) /\
    acc ∉ dom h0.

(** A store with three findings, and the array that lists them. *)
Definition exampleStore : gmap ref cell :=
  {[ 1%positive := FindingCell (mkLintError (RuleString "A") "mA" 3);
     2%positive := FindingCell (mkLintError RuleUndefined "m" 7);
     3%positive := FindingCell (mkLintError (RuleString "B") "mB" 3) ]}.

Definition exampleArray : list ref := [1%positive; 2%positive; 3%positive].

Definition exampleFindings : list LintError :=
  [mkLintError (RuleString "A") "mA" 3; mkLintError RuleUndefined "m" 7;
   mkLintError (RuleString "B") "mB" 3].

End AggregatorStore.

(** ** CommentEmitter: [sendSingleComment] and [sendComments] (server.js,
    lines 108-154) *)

Module Emitter.
Import JsString Aggregator.

(** The argument of [github.pullRequests.createComment]. *)
Record CreateComment : Type := mkCreateComment {
  user : option string;
  repo : option string;
  number : Z;
  body : string;
  commit_id : string;
  path : string;
  position : Z
}.

(** A number in a condition: zero is false. *)
Definition truthy (n : Z) : bool := negb (Z.eqb n 0).

Section WithEnvironment.

(** [process.env.REPOSITORY_OWNER] and [process.env.REPOSITORY_NAME] *)
Variables REPOSITORY_OWNER REPOSITORY_NAME : option string.

(** The calls of [createComment] the function makes. *)
Definition sendSingleComment (filename : string) (lineMap : gmap Z Z)
  (lintError : LineGroup) (sha : string) (prNumber : Z) : list CreateComment :=
  match lineMap !! groupLine lintError with
  | Some diffLinePosition =>
      if truthy diffLinePosition then
        [mkCreateComment REPOSITORY_OWNER REPOSITORY_NAME prNumber
           (groupMessage lintError) sha filename diffLinePosition]
      else []
  | None => []
  end.

Fixpoint forEachKey (errorsByLine : list (string * LineGroup))
  (filename : string) (lineMap : gmap Z Z) (sha : string) (prNumber : Z)
  (keys : list string) : completion (list CreateComment) :=
  match keys with
  | [] => Returned []
  | k :: rest =>
      match objGet errorsByLine k with
      | Some g =>
          let calls := sendSingleComment filename lineMap g sha prNumber in
          try! later := forEachKey errorsByLine filename lineMap sha prNumber rest in
          Returned (calls ++ later)%list
      | None => Threw TypeError
      end
  end.

Definition sendComments (filename : string) (lineMap : gmap Z Z)
  (lintErrors : list LintError) (sha : string) (prNumber : Z)
  : completion (list CreateComment) :=
  try! errorsByLine := groupLintErrorsByLine lintErrors in
  forEachKey errorsByLine filename lineMap sha prNumber (objKeys errorsByLine).

End WithEnvironment.

(** A LineMap as the data model has it: every position is 1-based. *)
Definition positionsOneBased (lineMap : gmap Z Z) : Prop :=
  forall k v, lineMap !! k = Some v -> 1 <= v.

(** Scenario 3 of the specification. *)
Definition scenario3_findings : list LintError :=
  [mkLintError RuleUndefined "m1" 5; mkLintError RuleUndefined "m2" 5;
   mkLintError RuleUndefined "m3" 8].

Definition scenario3_lineMap : gmap Z Z := {[ 5 := 2 ]}.

Definition scenario3_group : LineGroup :=
  mkLineGroup 5 (nl ++ "**Eslint**: m1" ++ nl ++ "**Eslint**: m2").

End Emitter.

(** ** The webhook endpoint: [app.post('/')]

    The trace lists what a request makes the handler do. *)

Module Webhook.

Record PullRequest : Type := mkPullRequest {
  head_ref : string;
  head_sha : string
}.

(** The parsed body: [pull_request] and [action] may be missing. *)
Record Payload : Type := mkPayload {
  action : option string;
  pr_number : Z;
  pull_request : option PullRequest
}.

Inductive Event : Type :=
| TreatPayload (p : Payload)
| ConsoleLog
| ResponseEnd.

Definition actionIs (name : string) (p : Payload) : bool :=
  match action p with
  | Some a => String.eqb a name
  | None => false
  end.

Definition hasPullRequest (p : Payload) : bool :=
  match pull_request p with
  | Some _ => true
  | None => false
  end.

(** server.js, lines 177-183 *)
Definition post (payload : option Payload) : list Event :=
  ((match payload with
   | Some p =>
       if hasPullRequest p && actionIs "opened" p then [TreatPayload p] else []
   | None => []
   end) ++ [ConsoleLog; ResponseEnd])%list.

(** The revision with [groupLintErrorsByLine]: [payload.action] is read
    before [payload] is tested. *)
Definition post_groupingRevision (payload : option Payload)
  : completion (list Event) :=
  match payload with
  | None => Threw TypeError
  | Some p =>
      let openedOrReopened := actionIs "opened" p || actionIs "reopened" p in
      Returned
        ((if hasPullRequest p && openedOrReopened
          then [ConsoleLog; TreatPayload p] else []) ++ [ResponseEnd])%list
  end.

(** The revision without grouping: no test of [action]. *)
Definition post_ungroupedRevision (payload : option Payload) : list Event :=
  ((match payload with
   | Some p => if hasPullRequest p then [TreatPayload p] else []
   | None => []
   end) ++ [ConsoleLog; ResponseEnd])%list.

(** When the specification has a payload processed, and what it means for
    a trace that the pipeline was run. *)
Definition triggersProcessing (p : Payload) : Prop :=
  is_Some (pull_request p) /\
  (action p = Some "opened" \/ action p = Some "reopened").

Definition treated (trace : list Event) : Prop :=
  exists p, In (TreatPayload p) trace.

(** A pull request that is opened again. *)
Definition reopenedPayload : Payload :=
  mkPayload (Some "reopened") 7 (Some (mkPullRequest "feature" "abc123")).

End Webhook.

(** ** More of the parser's results: entries, hunks side by side *)

Module PatchEntries.
Import JsString PatchParser PatchSpec.

(** No addition line of [post] is given the number [k] by the parser,
    [before] being the lines in front of [post]. *)
Definition noLaterAddition (k : Z) (before post : list string) : Prop :=
  forall mid l rest,
    post = (mid ++ l :: rest)%list -> firstCharIs "+" l = true ->
    nextFileLine (before ++ mid)%list <> Some k.

(** The number of body lines of a patch. *)
Definition bodyLines (patchString : string) : Z :=
  diffPosition (split patchString) - 1.

(** A map of positions moved down by [delta] body lines. *)
Definition shifted (delta : Z) (m : gmap Z Z) : gmap Z Z :=
  (fun v => v + delta) <$> m.

(** A run that follows another one, [delta] body lines further, over the
    entries [m0] the other run had made. *)
Definition follows (delta : Z) (m0 : gmap Z Z) (s1 s2 : ParserState) : Prop :=
  diffLineIndex s1 = diffLineIndex s2 + delta /\
  fileLineIndex s1 = fileLineIndex s2 /\
  lineMap s1 = shifted delta (lineMap s2) ∪ m0.

(** Two hunks, parsed apart and together. *)
Definition hunkA : string :=
  "@@ -1,2 +1,3 @@" ++ String newline " a" ++ String newline "+b"
  ++ String newline " c".

Definition hunkB : string :=
  "@@ -10,2 +12,3 @@" ++ String newline "+x" ++ String newline " y".

End PatchEntries.

(** ** The unified diff format, read on its own

    What a patch says, independently of the parser: a hunk header
    [@@ -a[,b] +c[,d] @@] gives the number [c] of the first line of the new
    file in the hunk; the lines of the new file are the context lines
    (beginning with a space) and the additions (beginning with '+');
    deletions and the marker [\ No newline at end of file] are not lines of
    the new file. *)

Module UnifiedDiff.
Import JsString PatchParser PatchSpec.

(** Every integer up to 2^53 is a double; above, doubles round. *)
Definition safeIntegerLimit : Z := 2 ^ 53.

Definition digitOf (c : ascii) : Z :=
  match c with
  | "0" => 0 | "1" => 1 | "2" => 2 | "3" => 3 | "4" => 4
  | "5" => 5 | "6" => 6 | "7" => 7 | "8" => 8 | "9" => 9
  | _ => 0
  end%char.

(** The number a string of decimal digits writes: every digit counts for
    the power of ten of its place. *)
Fixpoint decimalValue (digits : string) : Z :=
  match digits with
  | EmptyString => 0
  | String c r =>
      digitOf c * 10 ^ Z.of_nat (String.length r) + decimalValue r
  end.

(** [s] without its prefix [p]. *)
Fixpoint stripPrefix (p s : string) : option string :=
  match p with
  | EmptyString => Some s
  | String a p' =>
      match s with
      | EmptyString => None
      | String b s' => if Ascii.eqb a b then stripPrefix p' s' else None
      end
  end.

(** The digits at the front of [s], and what follows them. *)
Fixpoint spanDigits (s : string) : string * string :=
  match s with
  | EmptyString => (EmptyString, EmptyString)
  | String c r =>
      if isDigit c
      then (String c (fst (spanDigits r)), snd (spanDigits r))
      else (EmptyString, s)
  end.

(** A range [start] or [start,length] at the front of [s]: the digits of
    the start, and what follows the range. *)
Definition readRange (s : string) : option (string * string) :=
  let start := fst (spanDigits s) in
  let rest := snd (spanDigits s) in
  if String.eqb start "" then None
  else
    match rest with
    | EmptyString => Some (start, rest)
    | String c r =>
        if Ascii.eqb c ","
        then if String.eqb (fst (spanDigits r)) "" then None
             else Some (start, snd (spanDigits r))
        else Some (start, rest)
    end.

(** The new-file start of a hunk header [@@ -a[,b] +c[,d] @@ ...]; [None]
    when the line is not a hunk header. *)
Definition readHeader (line : string) : option Z :=
  match stripPrefix "@@ -" line with
  | None => None
  | Some r1 =>
      match readRange r1 with
      | None => None
      | Some (_, r2) =>
          match stripPrefix " +" r2 with
          | None => None
          | Some r3 =>
              match readRange r3 with
              | None => None
              | Some (newStart, r4) =>
                  match stripPrefix " @@" r4 with
                  | None => None
                  | Some _ => Some (decimalValue newStart)
                  end
              end
          end
      end
  end.

Definition isHeader (line : string) : bool :=
  match readHeader line with
  | Some _ => true
  | None => false
  end.

(** The hunk a position is in, given the lines [pre] before it: the start
    of the last hunk header of [pre], and the lines after that header. *)
Fixpoint hunkAt (pre : list string) : option Z * list string :=
  match pre with
  | [] => (None, [])
  | l :: rest =>
      match hunkAt rest with
      | (Some start, body) => (Some start, body)
      | (None, body) =>
          match readHeader l with
          | Some start => (Some start, body)
          | None => (None, l :: body)
          end
      end
  end.

(** The number, in the new file, of a context or addition line that comes
    right after [pre]: the start of its hunk, plus the context and addition
    lines before it in the hunk. No number before the first header. *)
Definition newFileLine (pre : list string) : option Z :=
  match hunkAt pre with
  | (Some start, body) => Some (start + contextAndAdditionLines body)
  | (None, _) => None
  end.

(** A line of a patch whose numbers are integers a double holds exactly:
    the line is a hunk header whose start, with the [n] lines of the patch
    added, is within the limit, or it does not begin with "@@". *)
Definition safeLine (n : nat) (line : string) : bool :=
  match readHeader line with
  | Some start => Z.leb (start + Z.of_nat n) safeIntegerLimit
  | None => negb (matchHunkHeader line)
  end.

Definition safeHeaders (lines : list string) : bool :=
  Z.ltb (Z.of_nat (length lines)) safeIntegerLimit &&
  forallb (safeLine (length lines)) lines.

(** A patch as the service sends it for a text file with a final newline:
    it begins with a hunk header, and every line is a hunk header, a
    context line, an addition or a deletion. *)
Definition cleanUnifiedDiff (lines : list string) : bool :=
  safeHeaders lines &&
  match lines with
  | h :: _ => isHeader h
  | [] => false
  end &&
  forallb (fun l => isHeader l || prefixedLine l) lines.

(** The last addition numbered [k]: no addition of [post] has the number
    [k], [before] being the lines in front of [post]. *)
Definition lastNumbered (k : Z) (before post : list string) : Prop :=
  forall mid l rest,
    post = (mid ++ l :: rest)%list -> isAdditionLine l ->
    newFileLine (before ++ mid)%list <> Some k.

(** Scenario 2, inside the first hunk: the state before the second header. *)
Definition scenario2_inHunk : ParserState :=
  mkState 5 4 {[ 2 := 3; 3 := 4 ]}.

(** The last line of the old file, without a final newline, is replaced. *)
Definition markerLine : string := "\ No newline at end of file".

Definition markerLines : list string :=
  ["@@ -7 +7 @@"; "-old"; markerLine; "+new"].

Definition markerPatch : string :=
  "@@ -7 +7 @@" ++ String newline "-old" ++ String newline markerLine
  ++ String newline "+new".

End UnifiedDiff.

(** ** The body of a group, as the specification describes it *)

Module GroupBody.
Import JsString Aggregator.

(** [**ruleId**: message], the rule id replaced by [placeholder] when the
    finding has none (a finding of the file or of the parser, for which
    ESLint gives [null], or a finding without the property). *)
Definition describedEntry (placeholder : string) (e : LintError) : string :=
  "**" ++ match ruleId e with
          | RuleString r => r
          | RuleNull => placeholder
          | RuleUndefined => placeholder
          end ++ "**: " ++ message e.

(** The entries of the findings on line [n], joined by newlines. *)
Definition describedBody (placeholder : string) (n : Z)
  (lintErrors : list LintError) : string :=
  join nl (map (describedEntry placeholder) (findingsOn n lintErrors)).

(** What ESLint reports when the file cannot be parsed. *)
Definition parseError : LintError :=
  mkLintError RuleNull "Parsing error: Unexpected token" 1.

End GroupBody.

(** ** The order of the groups *)

Module GroupOrder.
Import JsString Aggregator Emitter.

(** The distinct elements of a list, each at its first occurrence. *)
Fixpoint firstSeen (l : list Z) : list Z :=
  match l with
  | [] => []
  | x :: rest => x :: List.filter (fun y => negb (Z.eqb y x)) (firstSeen rest)
  end.

(** The lines of the findings, in the order they are first met. *)
Definition linesOf (lintErrors : list LintError) : list Z :=
  firstSeen (map line lintErrors).

(** The comment of line [n], if the map has a position for it that passes
    the test. *)
Definition commentOn (owner name : option string) (filename : string)
  (lineMap : gmap Z Z) (lintErrors : list LintError) (sha : string)
  (prNumber : Z) (n : Z) : list CreateComment :=
  match lineMap !! n with
  | Some pos =>
      if truthy pos
      then [mkCreateComment owner name prNumber (codeBody n lintErrors)
              sha filename pos]
      else []
  | None => []
  end.

End GroupOrder.

(** ** One file, from its content to its comments: [lintContent] (server.js,
    lines 92-98) followed by [sendComments], as [treatPayload] chains them *)

Module Pipeline.
Import JsString PatchParser Aggregator Emitter.

(** What [eslint.executeOnText] returns, as far as the program reads it. *)
Record EslintResult : Type := mkEslintResult {
  messages : list LintError
}.

Record EslintReport : Type := mkEslintReport {
  results : list EslintResult
}.

(** [_.get(report, 'results[0].messages')]: [None] is [undefined]. *)
Definition getMessages (report : EslintReport) : option (list LintError) :=
  match results report with
  | [] => None
  | r :: _ => Some (messages r)
  end.

(** What [getContent] resolves to. The service gives no [patch] for a
    binary file or a diff that is too large: [None] is [undefined]. *)
Record FileContent : Type := mkFileContent {
  fc_filename : string;
  fc_patch : option string;
  fc_sha : string;
  fc_prNumber : Z;
  fc_content : string
}.

(** What [lintContent] returns. *)
Record Linted : Type := mkLinted {
  l_filename : string;
  l_lineMap : gmap Z Z;
  l_lintErrors : option (list LintError);
  l_sha : string;
  l_prNumber : Z
}.

Section WithEslint.

Variables REPOSITORY_OWNER REPOSITORY_NAME : option string.

(** [eslint.executeOnText(content, filename)] *)
Variable executeOnText : string -> string -> EslintReport.

(** [getLineMapFromPatchString(patch)]: [patchString.split] throws on
    [undefined]. *)
Definition getLineMapFromPatch (patch : option string)
  : completion (gmap Z Z) :=
  match patch with
  | Some patchString => getLineMapFromPatchString patchString
  | None => Threw TypeError
  end.

Definition lintContent (f : FileContent) : completion Linted :=
  try! lm := getLineMapFromPatch (fc_patch f) in
  Returned (mkLinted (fc_filename f) lm
              (getMessages (executeOnText (fc_content f) (fc_filename f)))
              (fc_sha f) (fc_prNumber f)).

(** [sendComments] on the object [lintContent] returns: [lintErrors.reduce]
    throws when [lintErrors] is [undefined]. *)
Definition sendCommentsOf (l : Linted) : completion (list CreateComment) :=
  match l_lintErrors l with
  | None => Threw TypeError
  | Some lintErrors =>
      sendComments REPOSITORY_OWNER REPOSITORY_NAME (l_filename l)
        (l_lineMap l) lintErrors (l_sha l) (l_prNumber l)
  end.

(** [.then(lintContent).then(sendComments)]: a throw rejects the promise,
    and the steps after it are skipped. *)
Definition reviewFile (f : FileContent) : completion (list CreateComment) :=
  try! l := lintContent f in sendCommentsOf l.

(** *** The revision with [groupLintErrorsByLine] (part_001, lines 67-146):
    the map is computed again for every group, in the argument of
    [sendSingleComment]. *)



(** *** The revision without grouping (part_001, lines 314-356): one comment
    for every finding. *)

Definition sendSingleComment_ungrouped (filename : string)
  (lineMap : gmap Z Z) (lintError : LintError) (sha : string) (prNumber : Z)
  : list CreateComment :=
  match lineMap !! line lintError with
  | Some diffLinePosition =>
      if truthy diffLinePosition then
        [mkCreateComment REPOSITORY_OWNER REPOSITORY_NAME prNumber
           (entry lintError) sha filename diffLinePosition]
      else []
  | None => []
  end.

Definition sendComments_ungrouped (filename : string) (lineMap : gmap Z Z)
  (messages : list LintError) (sha : string) (prNumber : Z)
  : list CreateComment :=
  flat_map
    (fun m => sendSingleComment_ungrouped filename lineMap m sha prNumber)
    messages.

End WithEslint.

(** A file whose patch is scenario 1, and a linter that reports one finding
    on line 2 and one on line 3. *)
Definition exampleFile : FileContent :=
  mkFileContent "a.js" (Some PatchSpec.scenario1) "sha" 1 "var x".

Definition exampleLinter (content filename : string) : EslintReport :=
  mkEslintReport
    [mkEslintResult [mkLintError (RuleString "semi") "Missing semicolon." 2;
                     mkLintError RuleUndefined "m" 3]].

End Pipeline.

(** ** Start-up: [isReadyToStart] and [startApp] (server.js, lines 186-217) *)

Module Startup.
Import JsString.

Definition requiredVars : list string :=
  ["GITHUB_USERNAME"; "GITHUB_PASSWORD"; "REPOSITORY_OWNER"; "REPOSITORY_NAME"].

(** [process.env[varName]] in a condition: a variable that is not defined,
    or is the empty string, is false. *)
Definition isSet (env : string -> option string) (varName : string) : bool :=
  match env varName with
  | Some v => negb (String.eqb v "")
  | None => false
  end.

(** [${process.env[varName]}] *)
Definition printed (v : option string) : string :=
  match v with
  | Some s => s
  | None => "undefined"
  end.

Definition setVarLine (env : string -> option string) (varName : string)
  : string :=
  if String.eqb varName "GITHUB_PASSWORD"
  then "* " ++ varName ++ " = ********"
  else "* " ++ varName ++ " = " ++ printed (env varName).

(** The arguments of the calls of [console.log], and the value returned. *)
Definition isReadyToStart (env : string -> option string)
  : list (list string) * bool :=
  let setVars := List.filter (fun v => isSet env v) requiredVars in
  let stillMissing := List.filter (fun v => negb (isSet env v)) requiredVars in
  let setVarsOutput := join nl (map (setVarLine env) setVars) in
  let log1 := ["Set variables:" ++ nl ++ setVarsOutput] in
  let log2 :=
    if (0 <? length stillMissing)%nat
    then [["Still waiting for following env vars to be set:";
           join ", " stillMissing]]
    else [] in
  ((log1 :: log2)%list, (length stillMissing =? 0)%nat).

Inductive StartEvent : Type :=
| Log (args : list string)
| Authenticate (username password : option string)
| Listen
| SetTimeout (delay : Z).

(** One run of [startApp]: what it does before it returns. *)
Definition startApp (env : string -> option string) : list StartEvent :=
  let '(logs, ready) := isReadyToStart env in
  (map Log logs ++
   (if ready
    then [Authenticate (env "GITHUB_USERNAME") (env "GITHUB_PASSWORD"); Listen]
    else [SetTimeout 2000]))%list.

(** Every required variable is defined, and not empty. *)
Definition allSet (env : string -> option string) : Prop :=
  forall varName, In varName requiredVars ->
    exists v, env varName = Some v /\ v <> ""%string.

(** The environment [env] with the variable [name] set to [v]. *)
Definition withVar (env : string -> option string) (name v : string)
  : string -> option string :=
  fun x => if String.eqb x name then Some v else env x.

Definition exampleEnv : string -> option string :=
  fun x =>
    if String.eqb x "GITHUB_USERNAME" then Some "bot"
    else if String.eqb x "REPOSITORY_OWNER" then Some "me"
    else if String.eqb x "REPOSITORY_NAME" then Some ""
    else None.

Definition completeEnv : string -> option string :=
  fun x =>
    if String.eqb x "GITHUB_USERNAME" then Some "bot"
    else if String.eqb x "GITHUB_PASSWORD" then Some "hunter2"
    else if String.eqb x "REPOSITORY_OWNER" then Some "me"
    else if String.eqb x "REPOSITORY_NAME" then Some "repo"
    else None.

End Startup.

(** * Properties *)

Local Open Scope list_scope.

(** ** Strings *)

Section StringFacts.
Import JsString PatchParser PatchSpec.

Lemma split_nonempty (s : string) : split s <> [].
Proof.
  induction s as [|c r IH]; simpl; [discriminate|].
  destruct (Ascii.eqb c newline); [discriminate|].
  destruct (split r); [contradiction|discriminate].
Qed.

(** [split] only cuts at newlines: joining the pieces gives the text back. *)
Lemma join_split (s : string) : join nl (split s) = s.
Proof.
  induction s as [|c r IH]; simpl; [reflexivity|].
  destruct (Ascii.eqb_spec c newline) as [->|Hc].
  - pose proof (split_nonempty r) as Hne.
    destruct (split r) as [|l ls] eqn:E; [contradiction|].
    simpl. change (String newline (join nl (l :: ls)) = String newline r).
    now rewrite IH.
  - pose proof (split_nonempty r) as Hne.
    destruct (split r) as [|l ls] eqn:E; [contradiction|].
    simpl in *. destruct ls; simpl in *; now rewrite <- IH.
Qed.

Lemma matchHunkHeader_spec (line : string) :
  matchHunkHeader line = true <-> isHunkHeaderLine line.
Proof.
  unfold isHunkHeaderLine, beginsWith. split.
  - destruct line as [|a [|b r]]; simpl; try discriminate.
    + destruct a as [[] [] [] [] [] [] [] []]; discriminate.
    + destruct (Ascii.eqb_spec a "@"%char) as [->|Ha].
      * destruct (Ascii.eqb_spec b "@"%char) as [->|Hb].
        -- intros _. now exists r.
        -- destruct b as [[] [] [] [] [] [] [] []]; try discriminate.
           now contradiction Hb.
      * destruct a as [[] [] [] [] [] [] [] []]; try discriminate.
        now contradiction Ha.
  - intros [rest ->]. reflexivity.
Qed.

Lemma firstCharIs_spec (c : ascii) (line : string) :
  firstCharIs c line = true <-> beginsWith (String c EmptyString) line.
Proof.
  unfold firstCharIs, beginsWith. destruct line as [|a r]; simpl.
  - split; [discriminate|]. intros [rest H]. discriminate.
  - destruct (Ascii.eqb_spec a c) as [->|Hne]; split; try discriminate.
    + intros _. now exists r.
    + reflexivity.
    + intros [rest H]. injection H as H _. contradiction.
Qed.

Lemma matchPlusDigits_spec (line : string) :
  is_Some (matchPlusDigits line) <-> declaresNewStart line.
Proof.
  unfold declaresNewStart. split.
  - induction line as [|c r IH]; simpl.
    + intros [x Hx]. discriminate.
    + destruct (Ascii.eqb_spec c "+"%char) as [->|Hc]; simpl.
      * destruct r as [|d after]; simpl.
        -- intros H. destruct (IH H) as (b & d & a & Heq & _).
           destruct b; discriminate.
        -- destruct (isDigit d) eqn:Hd.
           ++ intros _. now exists EmptyString, d, after.
           ++ intros H. destruct (IH H) as (b & d' & a & Heq & Hd').
              exists (String "+" b), d', a. simpl. now rewrite Heq.
      * intros H. destruct (IH H) as (b & d & a & Heq & Hd).
        exists (String c b), d, a. simpl. now rewrite Heq.
  - intros (before & d & after & -> & Hd).
    induction before as [|c b IH]; simpl.
    + rewrite Hd. eauto.
    + destruct (_ && _); eauto.
Qed.

Lemma hunkNewStart_returns (line : string) :
  (exists n, hunkNewStart line = Returned n) <-> declaresNewStart line.
Proof.
  rewrite <- matchPlusDigits_spec. unfold hunkNewStart.
  destruct (matchPlusDigits line); split.
  - eauto.
  - eauto.
  - intros [n H]. discriminate.
  - intros [x H]. discriminate.
Qed.

End StringFacts.

(** ** PatchParser *)

Section ParserFacts.
Import JsString PatchParser PatchSpec.

Lemma runLines_app (st : ParserState) (a b : list string) :
  runLines st (a ++ b) = try! st' := runLines st a in runLines st' b.
Proof.
  revert st. induction a as [|l a IH]; intros st; simpl; [reflexivity|].
  destruct (reducer st l); simpl; [apply IH|reflexivity].
Qed.

Lemma runLines_snoc (st : ParserState) (a : list string) (l : string) :
  runLines st (a ++ [l]) = try! st' := runLines st a in reducer st' l.
Proof.
  rewrite runLines_app. destruct (runLines st a) as [st'|]; simpl; [|reflexivity].
  now destruct (reducer st' l).
Qed.


(** The cases of the callback. *)
Lemma reducer_header (st : ParserState) (line : string) :
  matchHunkHeader line = true ->
  reducer st line =
    try! start := hunkNewStart line in
    Returned (mkState (diffLineIndex st) (start - 1) (lineMap st)).
Proof. intros H. unfold reducer. now rewrite H. Qed.

Lemma reducer_deletion (st : ParserState) (line : string) :
  matchHunkHeader line = false -> firstCharIs "-" line = true ->
  reducer st line =
    Returned (mkState (diffLineIndex st + 1) (fileLineIndex st) (lineMap st)).
Proof. intros H1 H2. unfold reducer. now rewrite H1, H2. Qed.

Lemma reducer_addition (st : ParserState) (line : string) :
  firstCharIs "+" line = true ->
  reducer st line =
    Returned (mkState (diffLineIndex st + 1) (fileLineIndex st + 1)
                (<[fileLineIndex st + 1 := diffLineIndex st + 1]> (lineMap st))).
Proof.
  intros H. unfold reducer.
  destruct line as [|c r]; [discriminate|].
  unfold firstCharIs in *. simpl in *.
  apply Ascii.eqb_eq in H. subst c. reflexivity.
Qed.

Lemma reducer_other (st : ParserState) (line : string) :
  matchHunkHeader line = false ->
  firstCharIs "-" line = false -> firstCharIs "+" line = false ->
  reducer st line =
    Returned (mkState (diffLineIndex st + 1) (fileLineIndex st + 1) (lineMap st)).
Proof. intros H1 H2 H3. unfold reducer. now rewrite H1, H2, H3. Qed.

Lemma addition_not_header (line : string) :
  firstCharIs "+" line = true -> matchHunkHeader line = false.
Proof.
  destruct line as [|c r]; [discriminate|]. unfold firstCharIs. simpl.
  intros H. apply Ascii.eqb_eq in H. now subst c.
Qed.

Lemma addition_not_deletion (line : string) :
  firstCharIs "+" line = true -> firstCharIs "-" line = false.
Proof.
  destruct line as [|c r]; [discriminate|]. unfold firstCharIs. simpl.
  intros H. apply Ascii.eqb_eq in H. now subst c.
Qed.

Lemma classify (line : string) : LineClass line.
Proof.
  destruct (matchHunkHeader line) eqn:Hh; [now apply IsHeader|].
  destruct (firstCharIs "+" line) eqn:Hp.
  - apply IsAddition; auto using addition_not_deletion.
  - destruct (firstCharIs "-" line) eqn:Hm; [now apply IsDeletion|now apply IsOther].
Qed.

(** [currentHunk] and the counts, one line further. *)
Lemma currentHunk_snoc (pre : list string) (l : string) :
  currentHunk (pre ++ [l]) =
    if matchHunkHeader l then (Some l, [])
    else (fst (currentHunk pre), snd (currentHunk pre) ++ [l]).
Proof.
  induction pre as [|x pre IH]; simpl.
  - now destruct (matchHunkHeader l).
  - rewrite IH. destruct (matchHunkHeader l).
    + reflexivity.
    + destruct (currentHunk pre) as [[h|] body]; simpl; [reflexivity|].
      now destruct (matchHunkHeader x).
Qed.

Lemma countedLines_snoc (body : list string) (l : string) :
  countedLines (body ++ [l]) =
    countedLines body + (if firstCharIs "-" l then 0 else 1).
Proof.
  unfold countedLines. rewrite filter_app, length_app.
  destruct (firstCharIs "-" l) eqn:H.
  - rewrite filter_cons_False; [simpl; lia|]. rewrite H. simpl. tauto.
  - rewrite filter_cons_True; [simpl; lia|]. now rewrite H.
Qed.

Lemma diffPosition_snoc (pre : list string) (l : string) :
  diffPosition (pre ++ [l]) =
    diffPosition pre + (if matchHunkHeader l then 0 else 1).
Proof.
  unfold diffPosition. rewrite filter_app, length_app.
  destruct (matchHunkHeader l) eqn:H.
  - rewrite filter_cons_False; [simpl; lia|]. rewrite H. simpl. tauto.
  - rewrite filter_cons_True; [simpl; lia|]. now rewrite H.
Qed.

Lemma nextFileLine_snoc_header (pre : list string) (l : string) (n : Z) :
  matchHunkHeader l = true -> hunkNewStart l = Returned n ->
  nextFileLine (pre ++ [l]) = Some n.
Proof.
  intros Hh Hn. unfold nextFileLine, startRead.
  rewrite currentHunk_snoc, Hh, Hn. simpl. f_equal. unfold countedLines. simpl. lia.
Qed.

Lemma nextFileLine_snoc_body (pre : list string) (l : string) :
  matchHunkHeader l = false ->
  nextFileLine (pre ++ [l]) =
    (fun n => n + (if firstCharIs "-" l then 0 else 1)) <$> nextFileLine pre.
Proof.
  intros Hh. unfold nextFileLine.
  rewrite currentHunk_snoc, Hh.
  destruct (currentHunk pre) as [[h|] body]; simpl.
  - rewrite countedLines_snoc. destruct (startRead h); simpl; f_equal; lia.
  - rewrite countedLines_snoc. f_equal; lia.
Qed.

(** The counters in closed form: after the lines [pre], the position counter
    is the number of body lines of [pre], and the file line counter is one
    less than the number of the next new-file line. *)
Lemma counters_closed_form (pre : list string) (st : ParserState) :
  runLines initial pre = Returned st ->
  diffLineIndex st + 1 = diffPosition pre /\
  nextFileLine pre = Some (fileLineIndex st + 1).
Proof.
  revert st. induction pre as [|l pre IH] using rev_ind; intros st.
  - simpl. intros [= <-]. split; reflexivity.
  - rewrite runLines_snoc.
    destruct (runLines initial pre) as [st1|] eqn:E1; simpl; [|discriminate].
    destruct (IH st1 eq_refl) as [IHd IHf].
    rewrite diffPosition_snoc.
    destruct (classify l) as [Hh|Hh Hm Hp|Hh Hm Hp|Hh Hm Hp].
    + rewrite (reducer_header _ _ Hh), Hh.
      destruct (hunkNewStart l) as [n|] eqn:En; simpl; [|discriminate].
      intros [= <-]. simpl. split; [lia|].
      rewrite (nextFileLine_snoc_header _ _ n Hh En). f_equal. lia.
    + rewrite (reducer_deletion _ _ Hh Hm), Hh. intros [= <-]. simpl.
      split; [lia|].
      rewrite (nextFileLine_snoc_body _ _ Hh), IHf, Hm. simpl. f_equal. lia.
    + rewrite (reducer_addition _ _ Hp), Hh. intros [= <-]. simpl.
      split; [lia|].
      rewrite (nextFileLine_snoc_body _ _ Hh), IHf, Hm. reflexivity.
    + rewrite (reducer_other _ _ Hh Hm Hp), Hh. intros [= <-]. simpl.
      split; [lia|].
      rewrite (nextFileLine_snoc_body _ _ Hh), IHf, Hm. reflexivity.
Qed.

End ParserFacts.

Section LineMapFacts.
Import JsString PatchParser PatchSpec.

Lemma snoc_split_inv {A : Type} (pre a b : list A) (l x : A) :
  pre ++ [l] = a ++ x :: b ->
  (a = pre /\ x = l /\ b = []) \/ (exists b', b = b' ++ [l] /\ pre = a ++ x :: b').
Proof.
  destruct b as [|y b' _] using rev_ind; intros H.
  - apply app_inj_tail in H as [-> ->]. now left.
  - right. exists b'.
    change (pre ++ [l] = a ++ (x :: b') ++ [y]) in H.
    rewrite app_assoc in H. apply app_inj_tail in H as [-> ->]. now split.
Qed.


(** The map is what the recorded assignments make of it. *)
Lemma lineMap_recorded (lines : list string) (st st' : ParserState) :
  runLines st lines = Returned st' ->
  lineMap st' = foldl assign (lineMap st) (recorded st lines).
Proof.
  revert st. induction lines as [|l lines IH]; intros st; simpl.
  - now intros [= <-].
  - destruct (reducer st l) as [st1|] eqn:E; simpl; [|discriminate].
    intros H. rewrite (IH _ H), foldl_app. f_equal.
    destruct (classify l) as [Hh|Hh Hm Hp|Hh Hm Hp|Hh Hm Hp].
    + rewrite (reducer_header _ _ Hh) in E. rewrite Hh. simpl.
      destruct (hunkNewStart l); simpl in E; [|discriminate].
      now injection E as <-.
    + rewrite (reducer_deletion _ _ Hh Hm) in E. rewrite Hp, andb_false_r.
      now injection E as <-.
    + rewrite (reducer_addition _ _ Hp) in E. rewrite Hh, Hp.
      now injection E as <-.
    + rewrite (reducer_other _ _ Hh Hm Hp) in E. rewrite Hp, andb_false_r.
      now injection E as <-.
Qed.

(** The recorded positions lie above the counter the run starts from, and
    each one above the one before. *)
Lemma recorded_increasing (lines : list string) (st st' : ParserState) :
  runLines st lines = Returned st' ->
  Forall (fun kv => diffLineIndex st < kv.2) (recorded st lines) /\
  StronglySorted Z.lt (map snd (recorded st lines)).
Proof.
  revert st. induction lines as [|l lines IH]; intros st; simpl.
  - intros _. split; constructor.
  - destruct (reducer st l) as [st1|] eqn:E; simpl; [|discriminate].
    intros H. destruct (IH _ H) as [IHall IHsorted].
    assert (Hstep : diffLineIndex st <= diffLineIndex st1 /\
      (negb (matchHunkHeader l) && firstCharIs "+" l = true ->
       diffLineIndex st < diffLineIndex st1)).
    { destruct (classify l) as [Hh|Hh Hm Hp|Hh Hm Hp|Hh Hm Hp].
      - rewrite (reducer_header _ _ Hh) in E. rewrite Hh. simpl.
        destruct (hunkNewStart l); simpl in E; [|discriminate].
        injection E as <-. simpl. split; [lia|discriminate].
      - rewrite (reducer_deletion _ _ Hh Hm) in E. injection E as <-. simpl. lia.
      - rewrite (reducer_addition _ _ Hp) in E. injection E as <-. simpl. lia.
      - rewrite (reducer_other _ _ Hh Hm Hp) in E. injection E as <-. simpl. lia. }
    destruct Hstep as [Hle Hlt].
    assert (Hrest : Forall (fun kv : Z * Z => diffLineIndex st < kv.2)
                      (recorded st1 lines)).
    { eapply Forall_impl; [exact IHall|]. simpl. intros kv Hkv. lia. }
    destruct (negb (matchHunkHeader l) && firstCharIs "+" l) eqn:Hw; simpl.
    + split.
      * constructor; [simpl; auto|exact Hrest].
      * constructor; [exact IHsorted|].
        apply Forall_fmap. eapply Forall_impl; [exact IHall|]. simpl. auto.
    + split; assumption.
Qed.

Lemma foldl_assign_lookup (l : list (Z * Z)) (m : gmap Z Z) (k v : Z) :
  foldl assign m l !! k = Some v -> m !! k = Some v \/ In (k, v) l.
Proof.
  revert m. induction l as [|[k' v'] l IH]; intros m; simpl; [auto|].
  intros H. apply IH in H as [H|H]; [|auto].
  unfold assign in H. simpl in H.
  destruct (decide (k' = k)) as [->|Hne].
  - rewrite lookup_insert_eq in H. injection H as ->. auto.
  - rewrite lookup_insert_ne in H by done. auto.
Qed.

(** Every position in a map the parser returns is at least 1. *)
Lemma lineMap_positions (patchString : string) (lm : gmap Z Z) :
  getLineMapFromPatchString patchString = Returned lm ->
  forall k v, lm !! k = Some v -> 1 <= v.
Proof.
  unfold getLineMapFromPatchString.
  destruct (runLines initial (split patchString)) as [st|] eqn:E; simpl; [|discriminate].
  intros [= <-] k v Hkv.
  rewrite (lineMap_recorded _ _ _ E) in Hkv.
  apply foldl_assign_lookup in Hkv as [Hkv|Hin]; [simpl in Hkv; discriminate|].
  destruct (recorded_increasing _ _ _ E) as [Hall _].
  rewrite List.Forall_forall in Hall. apply Hall in Hin. simpl in Hin. lia.
Qed.

End LineMapFacts.

Section TotalityFacts.
Import JsString PatchParser PatchSpec.

Lemma headerOk_spec (line : string) :
  headerOk line = true <-> (isHunkHeaderLine line -> declaresNewStart line).
Proof.
  unfold headerOk. rewrite <- matchHunkHeader_spec, <- matchPlusDigits_spec.
  destruct (matchHunkHeader line), (matchPlusDigits line); simpl; split; auto;
    try discriminate.
  intros H. destruct (H eq_refl) as [x Hx]. discriminate.
Qed.

Lemma headersOk_spec (patchString : string) :
  headersOk (split patchString) = true <-> headersWellFormed patchString.
Proof.
  unfold headersOk, headersWellFormed. rewrite forallb_forall.
  split; intros H line Hin.
  - apply headerOk_spec. auto.
  - apply headerOk_spec. auto.
Qed.

Lemma reducer_returns (st : ParserState) (line : string) :
  headerOk line = true -> exists st', reducer st line = Returned st'.
Proof.
  unfold headerOk, reducer, hunkNewStart.
  destruct (matchHunkHeader line); simpl.
  - destruct (matchPlusDigits line); [simpl; eauto|discriminate].
  - intros _. destruct (negb _); [destruct (firstCharIs "+" line)|]; eauto.
Qed.

Lemma reducer_throws (st : ParserState) (line : string) :
  headerOk line = false -> reducer st line = Threw TypeError.
Proof.
  unfold headerOk, reducer, hunkNewStart.
  destruct (matchHunkHeader line); simpl; [|discriminate].
  destruct (matchPlusDigits line); [discriminate|reflexivity].
Qed.

Lemma runLines_returns (lines : list string) (st : ParserState) :
  headersOk lines = true -> exists st', runLines st lines = Returned st'.
Proof.
  revert st. induction lines as [|l lines IH]; intros st; simpl; [eauto|].
  intros H. apply andb_true_iff in H as [Hl Hrest].
  destruct (reducer_returns st l Hl) as [st1 ->]. simpl. auto.
Qed.

Lemma runLines_throws (lines : list string) (st : ParserState) :
  headersOk lines = false -> runLines st lines = Threw TypeError.
Proof.
  revert st. induction lines as [|l lines IH]; intros st; simpl; [discriminate|].
  intros H. destruct (headerOk l) eqn:Hl; simpl in H.
  - destruct (reducer_returns st l Hl) as [st1 ->]. simpl. auto.
  - now rewrite (reducer_throws st l Hl).
Qed.

Lemma getLineMap_returns (patchString : string) :
  headersWellFormed patchString ->
  exists lm, getLineMapFromPatchString patchString = Returned lm.
Proof.
  intros H. apply headersOk_spec in H.
  destruct (runLines_returns _ initial H) as [st Hst].
  exists (lineMap st). unfold getLineMapFromPatchString. now rewrite Hst.
Qed.

Lemma getLineMap_throws (patchString : string) :
  ~ headersWellFormed patchString ->
  getLineMapFromPatchString patchString = Threw TypeError.
Proof.
  intros H. rewrite <- headersOk_spec in H.
  apply not_true_is_false in H.
  unfold getLineMapFromPatchString. now rewrite (runLines_throws _ initial H).
Qed.

End TotalityFacts.

(** ** The patch parser: keys, counters, totality *)

Section ParserClaims.
Import JsString PatchParser PatchSpec.

Lemma reducer_keeps_map (st st' : ParserState) (line : string) :
  reducer st line = Returned st' -> firstCharIs "+" line = false ->
  lineMap st' = lineMap st.
Proof.
  intros E Hp. destruct (classify line) as [Hh|Hh Hm _|Hh Hm Hp'|Hh Hm _].
  - rewrite (reducer_header _ _ Hh) in E.
    destruct (hunkNewStart line); simpl in E; [|discriminate].
    now injection E as <-.
  - rewrite (reducer_deletion _ _ Hh Hm) in E. now injection E as <-.
  - congruence.
  - rewrite (reducer_other _ _ Hh Hm Hp) in E. now injection E as <-.
Qed.

(** C6. Scenario 1: the patch of four lines (header, context, addition,
    context) gives the map with the single entry 2 -> 2. *)
Theorem scenario1_lineMap :
  split scenario1 = ["@@ -1,2 +1,3 @@"; " context"; "+added line"; " context2"] /\
  getLineMapFromPatchString scenario1 = Returned {[ 2 := 2 ]}.
Proof. split; vm_compute; reflexivity. Qed.

(** C8. The empty patch splits into one empty line, and parsing it returns
    the empty map. *)
Theorem empty_patch_lineMap :
  split "" = [""] /\ getLineMapFromPatchString "" = Returned ∅.
Proof. split; vm_compute; reflexivity. Qed.

(** C9. The parser returns a map on every patch whose lines beginning with
    "@@" all contain a '+' immediately followed by a decimal digit, and on
    every other patch it throws; the line "@@ malformed @@" is such a patch. *)
Theorem parser_total_iff_headers_well_formed :
  (forall patchString, headersWellFormed patchString ->
     exists lm, getLineMapFromPatchString patchString = Returned lm) /\
  (forall patchString, ~ headersWellFormed patchString ->
     getLineMapFromPatchString patchString = Threw TypeError) /\
  ~ headersWellFormed malformed /\
  getLineMapFromPatchString malformed = Threw TypeError.
Proof.
  split; [exact getLineMap_returns|]. split; [exact getLineMap_throws|].
  assert (H : ~ headersWellFormed malformed).
  { rewrite <- headersOk_spec. vm_compute. discriminate. }
  split; [exact H|]. now apply getLineMap_throws.
Qed.

Lemma parser_total_iff_headers_well_formed_witness :
  headersWellFormed scenario1 /\
  exists lm, getLineMapFromPatchString scenario1 = Returned lm.
Proof.
  assert (H : headersWellFormed scenario1).
  { apply headersOk_spec. vm_compute. reflexivity. }
  split; [exact H|].
  exact (proj1 parser_total_iff_headers_well_formed scenario1 H).
Defined.

End ParserClaims.

(** ** CommentEmitter *)

Section EmitterClaims.
Import JsString PatchParser PatchSpec Aggregator Emitter.

Variables owner name : option string.

Lemma truthy_positive (v : Z) : 1 <= v -> truthy v = true.
Proof. unfold truthy. intros H. destruct (Z.eqb_spec v 0); [lia|reflexivity]. Qed.

Lemma sendSingleComment_absent (filename : string) (lm : gmap Z Z)
  (g : LineGroup) (sha : string) (pr : Z) :
  lm !! groupLine g = None ->
  sendSingleComment owner name filename lm g sha pr = [].
Proof. intros H. unfold sendSingleComment. now rewrite H. Qed.

Lemma sendSingleComment_present (filename : string) (lm : gmap Z Z)
  (g : LineGroup) (sha : string) (pr pos : Z) :
  lm !! groupLine g = Some pos -> truthy pos = true ->
  sendSingleComment owner name filename lm g sha pr =
    [mkCreateComment owner name pr (groupMessage g) sha filename pos].
Proof. intros H Ht. unfold sendSingleComment. now rewrite H, Ht. Qed.

(** C5. For a group and a LineMap (positions 1-based, as the data model has
    them): when the line of the group is not a key, no comment is sent, and
    nothing is thrown; when it is a key, exactly one comment is sent, with
    the body of the group and the position the map gives. *)
Theorem sendSingleComment_zero_or_one (filename : string) (lm : gmap Z Z)
  (g : LineGroup) (sha : string) (pr : Z) :
  positionsOneBased lm ->
  (lm !! groupLine g = None ->
     sendSingleComment owner name filename lm g sha pr = []) /\
  (forall pos, lm !! groupLine g = Some pos ->
     sendSingleComment owner name filename lm g sha pr =
       [mkCreateComment owner name pr (groupMessage g) sha filename pos]).
Proof.
  intros Hlm. split.
  - apply sendSingleComment_absent.
  - intros pos Hpos. apply sendSingleComment_present; [exact Hpos|].
    apply truthy_positive. exact (Hlm _ _ Hpos).
Qed.

(** C10. In a map the parser returns every position is at least 1; the map
    is the result of the recorded assignments, whose positions are strictly
    increasing in the order they were made; so the test of the looked-up
    position in [sendSingleComment] succeeds exactly when the line is a key
    of the map: a comment is sent if and only if the line is a key. *)
Theorem lineMap_positions_make_guard_exact (patchString : string)
  (lm : gmap Z Z) :
  getLineMapFromPatchString patchString = Returned lm ->
  (forall k v, lm !! k = Some v -> 1 <= v) /\
  (lm = foldl assign ∅ (recorded initial (split patchString)) /\
   StronglySorted Z.lt (map snd (recorded initial (split patchString)))) /\
  (forall k v, lm !! k = Some v -> truthy v = true) /\
  (forall filename g sha pr,
     sendSingleComment owner name filename lm g sha pr <> [] <->
     is_Some (lm !! groupLine g)).
Proof.
  intros Hget. pose proof (lineMap_positions _ _ Hget) as Hpos.
  split; [exact Hpos|]. split.
  - unfold getLineMapFromPatchString in Hget.
    destruct (runLines initial (split patchString)) as [st|] eqn:E;
      simpl in Hget; [|discriminate].
    injection Hget as <-. split.
    + exact (lineMap_recorded _ _ _ E).
    + exact (proj2 (recorded_increasing _ _ _ E)).
  - split.
    + intros k v Hkv. apply truthy_positive. eauto.
    + intros filename g sha pr. split.
      * intros Hsent. destruct (lm !! groupLine g) as [pos|] eqn:El; [eauto|].
        contradiction Hsent. now apply sendSingleComment_absent.
      * intros [pos Hl].
        rewrite (sendSingleComment_present _ _ _ _ _ _ Hl); [discriminate|].
        apply truthy_positive. eauto.
Qed.

End EmitterClaims.

(** ** FindingAggregator *)

Section AggregatorFacts.
Import JsString Aggregator.

Lemma objGet_objSet_eq {V : Type} (o : list (string * V)) (k : string) (v : V) :
  objGet (objSet o k v) k = Some v.
Proof.
  induction o as [|[k' v'] o IH]; simpl.
  - now rewrite String.eqb_refl.
  - destruct (String.eqb_spec k' k) as [->|Hne]; simpl.
    + now rewrite String.eqb_refl.
    + destruct (String.eqb_spec k' k); [contradiction|exact IH].
Qed.

Lemma objGet_objSet_ne {V : Type} (o : list (string * V)) (k k' : string) (v : V) :
  k <> k' -> objGet (objSet o k v) k' = objGet o k'.
Proof.
  intros Hne. induction o as [|[k0 v0] o IH]; simpl.
  - destruct (String.eqb_spec k k'); [contradiction|reflexivity].
  - destruct (String.eqb_spec k0 k) as [->|Hk]; simpl.
    + destruct (String.eqb_spec k k'); [contradiction|reflexivity].
    + now rewrite IH.
Qed.

Lemma string_of_int_of_int (d : Decimal.signed_int) :
  Z.of_int <$> NilZero.int_of_string (NilZero.string_of_int d) = Some (Z.of_int d).
Proof.
  destruct d as [[| | | | | | | | | |]|[| | | | | | | | | |]];
    try (rewrite NilZero.isi; [reflexivity|discriminate|discriminate]);
    reflexivity.
Qed.

Lemma numberToString_inj (a b : Z) : numberToString a = numberToString b -> a = b.
Proof.
  unfold numberToString. intros H.
  pose proof (string_of_int_of_int (Z.to_int a)) as Ha.
  pose proof (string_of_int_of_int (Z.to_int b)) as Hb.
  rewrite H, Hb in Ha. rewrite !DecimalZ.of_to in Ha. now injection Ha.
Qed.

Lemma getKey_inj (a b : Z) : getKey a = getKey b -> a = b.
Proof. unfold getKey. simpl. intros [= H]. now apply numberToString_inj. Qed.

Lemma reduceFrom_snoc (acc : list (string * LineGroup)) (es : list LintError)
  (e : LintError) :
  reduceFrom acc (es ++ [e]) = try! acc' := reduceFrom acc es in groupReducer acc' e.
Proof.
  revert acc. induction es as [|x es IH]; intros acc; simpl.
  - now destruct (groupReducer acc e).
  - destruct (groupReducer acc x); simpl; [apply IH|reflexivity].
Qed.

Lemma string_app_cons (c : ascii) (s t : string) :
  (String c s ++ t)%string = String c (s ++ t).
Proof. reflexivity. Qed.

Lemma string_app_empty_r (s : string) : (s ++ "")%string = s.
Proof.
  induction s as [|c s IH]; [reflexivity|]. now rewrite string_app_cons, IH.
Qed.

Lemma string_app_assoc (a b c : string) :
  ((a ++ b) ++ c)%string = (a ++ (b ++ c))%string.
Proof.
  induction a as [|x a IH]; [reflexivity|]. now rewrite !string_app_cons, IH.
Qed.

Lemma concat_empty_app (l1 l2 : list string) :
  String.concat "" (l1 ++ l2) = (String.concat "" l1 ++ String.concat "" l2)%string.
Proof.
  induction l1 as [|x l1 IH]; simpl; [reflexivity|].
  destruct l1 as [|y l1]; simpl in *.
  - destruct l2; simpl; [now rewrite string_app_empty_r|reflexivity].
  - rewrite IH. now rewrite string_app_assoc.
Qed.

Lemma findingsOn_snoc (n : Z) (es : list LintError) (e : LintError) :
  findingsOn n (es ++ [e]) =
    findingsOn n es ++ (if Z.eqb (line e) n then [e] else []).
Proof.
  unfold findingsOn. rewrite filter_app. f_equal.
  destruct (Z.eqb (line e) n) eqn:H.
  - rewrite filter_cons_True; [reflexivity|]. now rewrite H.
  - rewrite filter_cons_False; [reflexivity|]. rewrite H. simpl. tauto.
Qed.

Lemma codeBody_snoc (n : Z) (es : list LintError) (e : LintError) :
  codeBody n (es ++ [e]) =
    (codeBody n es ++ (if Z.eqb (line e) n then nl ++ entry e else ""))%string.
Proof.
  unfold codeBody. rewrite findingsOn_snoc, map_app, concat_empty_app.
  destruct (Z.eqb (line e) n); reflexivity.
Qed.

(** The group of line [n] after the findings [es]. *)
Lemma reduce_closed_form (es : list LintError) :
  exists groups, reduceFrom [] es = Returned groups /\
    forall n, objGet groups (getKey n) =
      match findingsOn n es with
      | [] => None
      | _ :: _ => Some (mkLineGroup n (codeBody n es))
      end.
Proof.
  induction es as [|e es IH] using rev_ind.
  - exists []. split; [reflexivity|]. intros n. reflexivity.
  - destruct IH as (groups & Hrun & Hget).
    rewrite reduceFrom_snoc, Hrun. simpl. unfold groupReducer.
    pose proof (Hget (line e)) as Hline.
    set (key := getKey (line e)) in *.
    assert (Hother : forall (acc : list (string * LineGroup)) g n,
      Z.eqb (line e) n = false ->
      objGet (objSet acc key g) (getKey n) = objGet acc (getKey n)).
    { intros acc g n Hn. apply objGet_objSet_ne. intros Heq.
      apply getKey_inj in Heq. apply Z.eqb_neq in Hn. contradiction. }
    destruct (findingsOn (line e) es) as [|f fs] eqn:Ef; rewrite Hline;
      cbv beta iota; [|rewrite Hline].
    + rewrite objGet_objSet_eq. eexists. split; [reflexivity|]. intros n.
      rewrite findingsOn_snoc, codeBody_snoc.
      destruct (Z.eqb_spec (line e) n) as [<-|Hne].
      * rewrite objGet_objSet_eq, Ef. simpl. unfold codeBody. now rewrite Ef.
      * rewrite !Hother by now apply Z.eqb_neq.
        rewrite Hget, app_nil_r, string_app_empty_r. reflexivity.
    + eexists. split; [reflexivity|]. intros n.
      rewrite findingsOn_snoc, codeBody_snoc.
      destruct (Z.eqb_spec (line e) n) as [<-|Hne].
      * rewrite objGet_objSet_eq, Ef. simpl. reflexivity.
      * rewrite Hother by now apply Z.eqb_neq.
        rewrite Hget, app_nil_r, string_app_empty_r. reflexivity.
Qed.

(** The body the code builds is a newline, then what the specification
    describes. *)
Lemma codeBody_specBody (n : Z) (es : list LintError) :
  findingsOn n es <> [] -> codeBody n es = (nl ++ specBody n es)%string.
Proof.
  unfold codeBody, specBody. generalize (findingsOn n es) as fs.
  induction fs as [|f fs IH]; [contradiction|]. intros _. simpl.
  destruct fs as [|f' fs]; [reflexivity|].
  rewrite IH by discriminate. simpl. reflexivity.
Qed.

End AggregatorFacts.


(** ** The aggregation on a store *)

Section StoreFacts.
Import JsString Aggregator AggregatorStore.

Lemma groupAt_Some (h : gmap ref cell) (k k' : string) (r : ref) (g : LineGroup) :
  groupAt h (k, r) = Some (k', g) <-> k = k' /\ h !! r = Some (GroupCell g).
Proof.
  unfold groupAt. simpl. destruct (h !! r) as [[e|g0|d]|]; split;
    try discriminate; try (intros [_ H]; discriminate H).
  - intros [= -> ->]. auto.
  - intros [-> [= ->]]. reflexivity.
Qed.

Lemma holds_objGet_None (h : gmap ref cell) (d : list (string * ref))
  (groups : list (string * LineGroup)) (k : string) :
  holds h d groups -> objGet d k = None -> objGet groups k = None.
Proof.
  induction 1 as [|[k1 r1] [k2 g2] d groups Hhead _ IH]; simpl; [reflexivity|].
  apply groupAt_Some in Hhead as [<- _].
  destruct (String.eqb k1 k); [discriminate|exact IH].
Qed.

Lemma holds_objGet_Some (h : gmap ref cell) (d : list (string * ref))
  (groups : list (string * LineGroup)) (k : string) (r : ref) :
  holds h d groups -> objGet d k = Some r ->
  exists g, objGet groups k = Some g /\ h !! r = Some (GroupCell g).
Proof.
  induction 1 as [|[k1 r1] [k2 g2] d groups Hhead _ IH]; simpl; [discriminate|].
  apply groupAt_Some in Hhead as [<- Hr1].
  destruct (String.eqb k1 k); [|exact IH].
  intros [= <-]. eauto.
Qed.

Lemma objGet_Some_In {V : Type} (o : list (string * V)) (k : string) (v : V) :
  objGet o k = Some v -> In v (map snd o).
Proof.
  induction o as [|[k' v'] o IH]; simpl; [discriminate|].
  destruct (String.eqb k' k); [intros [= ->]; auto|auto].
Qed.

Lemma objSet_absent {V : Type} (o : list (string * V)) (k : string) (v : V) :
  objGet o k = None -> objSet o k v = o ++ [(k, v)].
Proof.
  induction o as [|[k' v'] o IH]; simpl; [reflexivity|].
  destruct (String.eqb k' k); [discriminate|]. intros H. now rewrite IH.
Qed.

(** Writes outside the dictionary's groups do not change what it gives. *)
Lemma holds_frame (h h' : gmap ref cell) (d : list (string * ref))
  (groups : list (string * LineGroup)) :
  holds h d groups -> (forall r, In r (map snd d) -> h' !! r = h !! r) ->
  holds h' d groups.
Proof.
  induction 1 as [|[k1 r1] [k2 g2] d groups Hhead _ IH]; intros Hsame.
  - constructor.
  - constructor.
    + apply groupAt_Some in Hhead as [<- Hr1]. apply groupAt_Some.
      split; [reflexivity|]. rewrite Hsame; [exact Hr1|]. simpl. auto.
    + apply IH. intros r Hr. apply Hsame. simpl. auto.
Qed.

(** [acc[key].message = ...] on a group that exists. *)
Lemma holds_update (h : gmap ref cell) (d : list (string * ref))
  (groups : list (string * LineGroup)) (k : string) (r : ref) (g' : LineGroup) :
  holds h d groups -> NoDup (map snd d) -> objGet d k = Some r ->
  holds (<[r := GroupCell g']> h) d (objSet groups k g').
Proof.
  induction 1 as [|[k1 r1] [k2 g2] d groups Hhead Htail IH]; simpl;
    [discriminate|].
  intros Hnodup Hget. apply NoDup_cons in Hnodup as [Hr1 Hnodup].
  apply groupAt_Some in Hhead as [<- Hcell].
  destruct (String.eqb k1 k) eqn:Ek.
  - injection Hget as <-. constructor.
    + apply groupAt_Some. split; [reflexivity|]. apply lookup_insert_eq.
    + apply (holds_frame h); [exact Htail|].
      intros r Hr. apply lookup_insert_ne. intros ->.
      apply Hr1. now apply list_elem_of_In.
  - constructor.
    + apply groupAt_Some. split; [reflexivity|].
      rewrite lookup_insert_ne; [exact Hcell|]. intros ->.
      apply Hr1. apply list_elem_of_In. now apply (objGet_Some_In _ k).
    + now apply IH.
Qed.

(** [acc[key] = { line, message: '' }] for a key that is not there. *)
Lemma holds_append (h h' : gmap ref cell) (d : list (string * ref))
  (groups : list (string * LineGroup)) (k : string) (r : ref) (g : LineGroup) :
  holds h d groups -> objGet d k = None ->
  h' !! r = Some (GroupCell g) ->
  (forall r', In r' (map snd d) -> h' !! r' = h !! r') ->
  holds h' (objSet d k r) (objSet groups k g).
Proof.
  intros Hd Hnone Hr Hsame.
  rewrite (objSet_absent d k r Hnone).
  rewrite (objSet_absent groups k g (holds_objGet_None _ _ _ _ Hd Hnone)).
  apply Forall2_app.
  - now apply (holds_frame h).
  - constructor; [|constructor]. now apply groupAt_Some.
Qed.

Lemma holds_in_dom (h : gmap ref cell) (d : list (string * ref))
  (groups : list (string * LineGroup)) (r : ref) :
  holds h d groups -> In r (map snd d) -> r ∈ dom h.
Proof.
  induction 1 as [|[k1 r1] [k2 g2] d groups Hhead _ IH]; simpl; [contradiction|].
  intros [<-|Hin]; [|auto].
  apply groupAt_Some in Hhead as [_ Hcell]. apply elem_of_dom. eauto.
Qed.

End StoreFacts.

Section StoreRun.
Import JsString Aggregator AggregatorStore.

Lemma findingAt_Some (h : gmap ref cell) (r : ref) (e : LintError) :
  findingAt h r = Some e <-> h !! r = Some (FindingCell e).
Proof.
  unfold findingAt. destruct (h !! r) as [[e'|g|d]|]; split;
    try discriminate; intros [= ->]; reflexivity.
Qed.

Lemma underWay_dom (h0 h : gmap ref cell) (acc : ref)
  (groups : list (string * LineGroup)) (r : ref) :
  underWay h0 h acc groups -> r ∈ dom h0 -> r ∈ dom h.
Proof.
  intros (d & _ & _ & _ & _ & Hframe & _) Hr.
  apply elem_of_dom. rewrite (Hframe r Hr). now apply elem_of_dom.
Qed.

(** One call of the callback: the store does what the function on values
    does, and the store stays as [underWay] describes. *)
Lemma groupReducerOn_step (h0 h : gmap ref cell) (acc : ref)
  (groups : list (string * LineGroup)) (r : ref) (e : LintError) :
  underWay h0 h acc groups -> findingAt h0 r = Some e ->
  exists h' groups',
    groupReducer groups e = Returned groups' /\
    groupReducerOn h acc r = Returned h' /\
    underWay h0 h' acc groups'.
Proof.
  intros Hinv He. pose proof Hinv as Hinv'.
  destruct Hinv as (d & Hacc & Hd & Hnd & Hnew & Hframe & Haccnew).
  apply findingAt_Some in He.
  assert (Hr : r ∈ dom h0) by (apply elem_of_dom; eauto).
  assert (Haccdom : acc ∈ dom h) by (apply elem_of_dom; eauto).
  unfold groupReducerOn, groupReducer.
  rewrite (Hframe r Hr), He, Hacc.
  set (key := getKey (line e)).
  destruct (objGet d key) as [gr|] eqn:Eg.
  - destruct (holds_objGet_Some _ _ _ _ _ Hd Eg) as (g & Hg & Hcell).
    rewrite Hg. cbv beta iota. rewrite Eg, Hg, Hcell.
    pose proof (objGet_Some_In _ _ _ Eg) as Hin.
    assert (Hgr : (gr ∉ dom h0) /\ (gr <> acc)).
    { rewrite List.Forall_forall in Hnew.
      apply in_map_iff in Hin as ([k0 r0] & <- & Hin).
      exact (Hnew _ Hin). }
    destruct Hgr as [Hgr0 Hgracc].
    eexists _, _. split; [reflexivity|]. split; [reflexivity|].
    exists d. repeat split.
    + rewrite lookup_insert_ne by done. exact Hacc.
    + now apply holds_update.
    + exact Hnd.
    + exact Hnew.
    + intros r' Hr'. rewrite lookup_insert_ne; [now apply Hframe|].
      intros ->. contradiction.
    + exact Haccnew.
  - pose proof (holds_objGet_None _ _ _ _ Hd Eg) as Hg.
    rewrite Hg. unfold alloc. cbv beta iota zeta.
    set (gr := fresh (dom h)).
    assert (Hfresh : gr ∉ dom h) by apply is_fresh.
    assert (Hgracc : gr <> acc) by (intros ->; contradiction).
    assert (Hgr0 : gr ∉ dom h0).
    { intros Hin. apply Hfresh. now apply (underWay_dom h0 h acc groups). }
    assert (Hgrd : ~ In gr (map snd d)).
    { intros Hin. apply Hfresh. now apply (holds_in_dom h d groups). }
    rewrite !objGet_objSet_eq.
    rewrite lookup_insert_ne by done. rewrite lookup_insert_eq.
    eexists _, _. split; [reflexivity|]. split; [reflexivity|].
    exists (objSet d key gr). repeat split.
    + rewrite lookup_insert_ne by done. apply lookup_insert_eq.
    + apply holds_update.
      * apply (holds_append h); [exact Hd|exact Eg| |].
        -- rewrite lookup_insert_ne by done. apply lookup_insert_eq.
        -- intros r' Hr'. rewrite !lookup_insert_ne; [reflexivity| |].
           ++ intros <-. contradiction.
           ++ intros <-. rewrite List.Forall_forall in Hnew.
              apply in_map_iff in Hr' as ([k0 r0] & Heq & Hin).
              simpl in Heq. subst r0. now destruct (Hnew _ Hin).
      * rewrite (objSet_absent _ _ _ Eg), map_app. simpl.
        apply NoDup_app. split; [exact Hnd|]. split.
        -- intros x Hx [->|[]]%list_elem_of_In. apply Hgrd.
           now apply list_elem_of_In.
        -- apply NoDup_singleton.
      * apply objGet_objSet_eq.
    + rewrite (objSet_absent _ _ _ Eg), map_app. simpl.
      apply NoDup_app. split; [exact Hnd|]. split.
      * intros x Hx [->|[]]%list_elem_of_In. apply Hgrd.
        now apply list_elem_of_In.
      * apply NoDup_singleton.
    + rewrite (objSet_absent _ _ _ Eg). apply Forall_app. split; [exact Hnew|].
      constructor; [|constructor]. simpl. auto.
    + intros r' Hr'.
      rewrite !lookup_insert_ne; [now apply Hframe|..];
        intros Heq; rewrite <- Heq in Hr'; contradiction.
    + exact Haccnew.
Qed.

End StoreRun.

Section StoreClaims.
Import JsString Aggregator AggregatorStore.

Lemma reduceOn_refines (h0 : gmap ref cell) (acc : ref) (arr : list ref)
  (es : list LintError) :
  Forall2 (fun r e => findingAt h0 r = Some e) arr es ->
  forall h groups, underWay h0 h acc groups ->
  exists h' groups',
    reduceFrom groups es = Returned groups' /\
    reduceOn h acc arr = Returned h' /\
    underWay h0 h' acc groups'.
Proof.
  induction 1 as [|r e arr es Hr _ IH]; intros h groups Hinv; simpl.
  - eauto.
  - destruct (groupReducerOn_step _ _ _ _ _ _ Hinv Hr)
      as (h1 & groups1 & -> & -> & Hinv1).
    simpl. exact (IH _ _ Hinv1).
Qed.

Lemma underWay_groupsOf (h0 h : gmap ref cell) (acc : ref)
  (groups : list (string * LineGroup)) :
  underWay h0 h acc groups -> groupsOf h acc = Some groups.
Proof.
  intros (d & Hacc & Hd & _). unfold groupsOf. rewrite Hacc.
  now apply mapM_Some_2.
Qed.

(** One call: it returns; the accumulator it returns gives the groups the
    function on values computes; what the store held before the call is as
    it was. *)
Lemma groupLintErrorsByLineOn_refines (h : gmap ref cell) (arr : list ref)
  (es : list LintError) :
  findingsOf h arr = Some es ->
  exists groups h' acc,
    groupLintErrorsByLine es = Returned groups /\
    groupLintErrorsByLineOn h arr = Returned (h', acc) /\
    groupsOf h' acc = Some groups /\
    (forall r, r ∈ dom h -> h' !! r = h !! r).
Proof.
  intros Hes. apply mapM_Some_1 in Hes.
  unfold groupLintErrorsByLineOn, groupLintErrorsByLine, alloc.
  set (acc := fresh (dom h)).
  assert (Hacc : acc ∉ dom h) by apply is_fresh.
  assert (Hinit : underWay h (<[acc := DictCell []]> h) acc []).
  { exists []. repeat split.
    - apply lookup_insert_eq.
    - constructor.
    - constructor.
    - constructor.
    - intros r Hr. apply lookup_insert_ne. intros Heq.
      rewrite <- Heq in Hr. contradiction.
    - exact Hacc. }
  destruct (reduceOn_refines h acc arr es Hes _ _ Hinit)
    as (h' & groups & Hpure & -> & Hinv).
  exists groups, h', acc. split; [exact Hpure|]. split; [reflexivity|].
  split; [exact (underWay_groupsOf _ _ _ _ Hinv)|].
  now destruct Hinv as (d & _ & _ & _ & _ & Hframe & _).
Qed.

(** What a store gives is not changed by a call that keeps what it held. *)
Lemma findingsOf_kept (h h' : gmap ref cell) (arr : list ref)
  (es : list LintError) :
  (forall r, r ∈ dom h -> h' !! r = h !! r) ->
  findingsOf h arr = Some es -> findingsOf h' arr = Some es.
Proof.
  intros Hkept Hes. apply mapM_Some_1 in Hes. apply mapM_Some_2.
  eapply Forall2_impl; [exact Hes|]. simpl. intros r e Hr.
  apply findingAt_Some in Hr. apply findingAt_Some.
  rewrite Hkept; [exact Hr|]. apply elem_of_dom. eauto.
Qed.

Lemma groupsOf_kept (h h' : gmap ref cell) (acc : ref)
  (groups : list (string * LineGroup)) :
  (forall r, r ∈ dom h -> h' !! r = h !! r) ->
  groupsOf h acc = Some groups -> groupsOf h' acc = Some groups.
Proof.
  intros Hkept. unfold groupsOf.
  destruct (h !! acc) as [[e|g|d]|] eqn:Hacc; try discriminate.
  rewrite Hkept, Hacc by (apply elem_of_dom; eauto).
  intros Hd. apply mapM_Some_1 in Hd. apply mapM_Some_2.
  eapply Forall2_impl; [exact Hd|]. simpl. intros [k r] [k' g] Hg.
  apply groupAt_Some in Hg as [-> Hcell]. apply groupAt_Some.
  split; [reflexivity|]. rewrite Hkept; [exact Hcell|]. apply elem_of_dom. eauto.
Qed.

(** C7. The aggregation is a function of the findings alone. Called twice
    on the same array of findings, in whatever store holds them, it returns
    both times, and both results give the same groups (same keys in the same
    order, same lines, same bodies): the groups computed from the list of
    findings. Neither call writes a cell that existed before it, so the
    findings are after each call what they were before, and the groups of
    the first result are not changed by the second call. *)
Theorem aggregation_twice_same_groups (h : gmap ref cell) (arr : list ref)
  (es : list LintError) :
  findingsOf h arr = Some es ->
  exists groups h1 acc1 h2 acc2,
    groupLintErrorsByLine es = Returned groups /\
    groupLintErrorsByLineOn h arr = Returned (h1, acc1) /\
    groupLintErrorsByLineOn h1 arr = Returned (h2, acc2) /\
    groupsOf h1 acc1 = Some groups /\
    groupsOf h2 acc2 = Some groups /\
    groupsOf h2 acc1 = Some groups /\
    (forall r, r ∈ dom h -> h1 !! r = h !! r) /\
    (forall r, r ∈ dom h1 -> h2 !! r = h1 !! r) /\
    findingsOf h1 arr = Some es /\
    findingsOf h2 arr = Some es.
Proof.
  intros Hes.
  destruct (groupLintErrorsByLineOn_refines h arr es Hes)
    as (groups & h1 & acc1 & Hpure & Hrun1 & Hg1 & Hkept1).
  pose proof (findingsOf_kept h h1 arr es Hkept1 Hes) as Hes1.
  destruct (groupLintErrorsByLineOn_refines h1 arr es Hes1)
    as (groups' & h2 & acc2 & Hpure' & Hrun2 & Hg2 & Hkept2).
  assert (groups' = groups) as -> by congruence.
  exists groups, h1, acc1, h2, acc2.
  repeat (split; [assumption|]).
  split; [exact (groupsOf_kept h1 h2 acc1 groups Hkept2 Hg1)|].
  repeat (split; [assumption|]).
  exact (findingsOf_kept h1 h2 arr es Hkept2 Hes1).
Qed.

End StoreClaims.

Import Aggregator AggregatorStore.

Lemma aggregation_twice_same_groups_witness :
  findingsOf exampleStore exampleArray = Some exampleFindings /\
  exists groups h1 acc1 h2 acc2,
    groupLintErrorsByLine exampleFindings = Returned groups /\
    groupLintErrorsByLineOn exampleStore exampleArray = Returned (h1, acc1) /\
    groupLintErrorsByLineOn h1 exampleArray = Returned (h2, acc2) /\
    groupsOf h1 acc1 = Some groups /\
    groupsOf h2 acc2 = Some groups /\
    groupsOf h2 acc1 = Some groups /\
    (forall r, r ∈ dom exampleStore -> h1 !! r = exampleStore !! r) /\
    (forall r, r ∈ dom h1 -> h2 !! r = h1 !! r) /\
    findingsOf h1 exampleArray = Some exampleFindings /\
    findingsOf h2 exampleArray = Some exampleFindings.
Proof.
  assert (H : findingsOf exampleStore exampleArray = Some exampleFindings)
    by (vm_compute; reflexivity).
  split; [exact H|].
  exact (aggregation_twice_same_groups exampleStore exampleArray exampleFindings H).
Defined.

(** ** More on the emitter: witnesses, [sendComments], scenario 3 *)

Section EmitterRun.
Import JsString PatchParser PatchSpec Emitter.

Lemma scenario3_lineMap_oneBased : positionsOneBased scenario3_lineMap.
Proof.
  intros k v H. unfold scenario3_lineMap in H.
  apply lookup_singleton_Some in H as [_ <-]. lia.
Qed.

Lemma objGet_of_key {V : Type} (o : list (string * V)) (k : string) :
  In k (objKeys o) -> is_Some (objGet o k).
Proof.
  induction o as [|[k' v] o IH]; simpl; [contradiction|].
  destruct (String.eqb_spec k' k) as [->|Hne]; [eauto|].
  intros [Heq|Hin]; [contradiction|auto].
Qed.

Lemma forEachKey_returns (owner name : option string)
  (errorsByLine : list (string * LineGroup)) (filename : string)
  (lm : gmap Z Z) (sha : string) (pr : Z) (keys : list string) :
  (forall k, In k keys -> is_Some (objGet errorsByLine k)) ->
  exists calls,
    forEachKey owner name errorsByLine filename lm sha pr keys = Returned calls.
Proof.
  induction keys as [|k keys IH]; intros Hkeys; simpl; [eauto|].
  destruct (Hkeys k (or_introl eq_refl)) as [g ->].
  destruct IH as [later ->]; [intros k' Hk'; apply Hkeys; now right|].
  simpl. eauto.
Qed.

(** [sendComments] throws on no list of findings. *)
Lemma sendComments_returns (owner name : option string) (filename : string)
  (lm : gmap Z Z) (lintErrors : list LintError) (sha : string) (pr : Z) :
  exists calls,
    sendComments owner name filename lm lintErrors sha pr = Returned calls.
Proof.
  unfold sendComments, groupLintErrorsByLine.
  destruct (reduce_closed_form lintErrors) as (groups & -> & _). simpl.
  apply forEachKey_returns. apply objGet_of_key.
Qed.

(** Scenario 3: two findings on line 5, one on line 8, and a map with the
    single entry 5 -> 2: one comment, at position 2, with both messages. *)
Example scenario3_one_comment (owner name : option string) :
  sendComments owner name "a.js" scenario3_lineMap scenario3_findings "sha" 1 =
    Returned [mkCreateComment owner name 1 (groupMessage scenario3_group)
               "sha" "a.js" 2].
Proof. reflexivity. Qed.

End EmitterRun.

Import JsString PatchParser PatchSpec Emitter.

Lemma sendSingleComment_zero_or_one_witness :
  positionsOneBased scenario3_lineMap /\
  (scenario3_lineMap !! groupLine scenario3_group = None ->
     sendSingleComment None None "a.js" scenario3_lineMap scenario3_group "sha" 1
       = []) /\
  (forall pos, scenario3_lineMap !! groupLine scenario3_group = Some pos ->
     sendSingleComment None None "a.js" scenario3_lineMap scenario3_group "sha" 1
       = [mkCreateComment None None 1 (groupMessage scenario3_group)
            "sha" "a.js" pos]).
Proof.
  split; [exact scenario3_lineMap_oneBased|].
  exact (sendSingleComment_zero_or_one None None "a.js" scenario3_lineMap
           scenario3_group "sha" 1 scenario3_lineMap_oneBased).
Defined.

Lemma lineMap_positions_make_guard_exact_witness :
  getLineMapFromPatchString scenario1 = Returned {[ 2 := 2 ]} /\
  (forall k v, ({[ 2 := 2 ]} : gmap Z Z) !! k = Some v -> 1 <= v) /\
  (({[ 2 := 2 ]} : gmap Z Z) = foldl assign ∅ (recorded initial (split scenario1)) /\
   StronglySorted Z.lt (map snd (recorded initial (split scenario1)))) /\
  (forall k v, ({[ 2 := 2 ]} : gmap Z Z) !! k = Some v -> truthy v = true) /\
  (forall filename g sha pr,
     sendSingleComment None None filename {[ 2 := 2 ]} g sha pr <> [] <->
     is_Some (({[ 2 := 2 ]} : gmap Z Z) !! groupLine g)).
Proof.
  assert (H : getLineMapFromPatchString scenario1 = Returned {[ 2 := 2 ]})
    by (vm_compute; reflexivity).
  split; [exact H|].
  exact (lineMap_positions_make_guard_exact None None scenario1 _ H).
Defined.

(** ** The webhook endpoint *)

Section WebhookClaims.
Import Webhook.

Lemma actionIs_spec (name : string) (p : Payload) :
  actionIs name p = true <-> action p = Some name.
Proof.
  unfold actionIs. destruct (action p) as [a|]; [|split; discriminate].
  destruct (String.eqb_spec a name) as [->|Hne]; split; try discriminate; auto.
  intros [= ->]. contradiction.
Qed.

Lemma hasPullRequest_spec (p : Payload) :
  hasPullRequest p = true <-> is_Some (pull_request p).
Proof.
  unfold hasPullRequest. destruct (pull_request p) as [pr|]; split.
  - intros _. now exists pr.
  - reflexivity.
  - discriminate.
  - intros [x H]. discriminate.
Qed.

Lemma treated_nil : ~ treated [].
Proof. intros [q []]. Qed.

Lemma treated_here (p : Payload) (trace : list Event) :
  treated (TreatPayload p :: trace).
Proof. exists p. now left. Qed.

Lemma treated_ConsoleLog (trace : list Event) :
  treated (ConsoleLog :: trace) <-> treated trace.
Proof.
  split; intros [q H]; exists q; [|now right].
  destruct H as [H|H]; [discriminate|exact H].
Qed.

Lemma treated_ResponseEnd (trace : list Event) :
  treated (ResponseEnd :: trace) <-> treated trace.
Proof.
  split; intros [q H]; exists q; [|now right].
  destruct H as [H|H]; [discriminate|exact H].
Qed.

Lemma not_treated_log_end : ~ treated [ConsoleLog; ResponseEnd].
Proof.
  rewrite treated_ConsoleLog, treated_ResponseEnd. exact treated_nil.
Qed.

(** What server.js does: the pipeline runs for "opened" alone, and the
    response is ended whatever the payload. *)
Lemma post_treats_iff_opened (p : Payload) :
  (treated (post (Some p)) <->
     is_Some (pull_request p) /\ action p = Some "opened") /\
  In ResponseEnd (post (Some p)).
Proof.
  unfold post.
  rewrite <- hasPullRequest_spec, <- (actionIs_spec "opened"), <- andb_true_iff.
  destruct (hasPullRequest p && actionIs "opened" p); simpl.
  - split; [|auto]. split; [reflexivity|]. intros _. apply treated_here.
  - split; [|auto]. split; [|discriminate].
    intros H. now apply not_treated_log_end in H.
Qed.

(** The revision with [groupLintErrorsByLine] does what the specification
    says: the pipeline runs for "opened" and for "reopened". *)
Lemma post_groupingRevision_treats_iff (p : Payload) :
  exists trace, post_groupingRevision (Some p) = Returned trace /\
    (treated trace <-> triggersProcessing p) /\ In ResponseEnd trace.
Proof.
  unfold post_groupingRevision, triggersProcessing.
  eexists. split; [reflexivity|].
  rewrite <- hasPullRequest_spec, <- !actionIs_spec, <- orb_true_iff,
    <- andb_true_iff.
  destruct (hasPullRequest p && (actionIs "opened" p || actionIs "reopened" p));
    simpl.
  - split; [|auto]. split; [reflexivity|]. intros _.
    apply treated_ConsoleLog, treated_here.
  - split; [|auto]. split; [|discriminate].
    rewrite treated_ResponseEnd. intros H. now apply treated_nil in H.
Qed.

(** The revision without grouping runs the pipeline for any action. *)
Lemma post_ungroupedRevision_treats_any_action (p : Payload) :
  treated (post_ungroupedRevision (Some p)) <-> is_Some (pull_request p).
Proof.
  unfold post_ungroupedRevision. rewrite <- hasPullRequest_spec.
  destruct (hasPullRequest p); simpl.
  - split; [reflexivity|]. intros _. apply treated_here.
  - split; [|discriminate]. intros H. now apply not_treated_log_end in H.
Qed.

(** C4, on server.js. A payload with a pull request and the action
    "reopened" is one the specification says is processed; the handler ends
    the response without calling [treatPayload]. *)
Theorem post_ignores_reopened :
  triggersProcessing reopenedPayload /\
  post (Some reopenedPayload) = [ConsoleLog; ResponseEnd] /\
  ~ treated (post (Some reopenedPayload)).
Proof.
  split; [|split].
  - split; [eexists; reflexivity|]. right. reflexivity.
  - reflexivity.
  - exact not_treated_log_end.
Qed.

End WebhookClaims.

(** ** The new-file start of a hunk header *)

Section HeaderFacts.
Import JsString PatchParser PatchSpec.

(** In a hunk made of context, addition and deletion lines, the new-side
    lines are the context lines and the addition lines. *)
Lemma countedLines_prefixed (body : list string) :
  forallb prefixedLine body = true ->
  countedLines body = contextAndAdditionLines body.
Proof.
  unfold countedLines, contextAndAdditionLines. intros H. do 2 f_equal.
  induction body as [|l body IH]; [reflexivity|].
  simpl in H. apply andb_true_iff in H as [Hl Hbody].
  assert (Hsame : negb (firstCharIs "-" l) = firstCharIs " " l || firstCharIs "+" l).
  { unfold prefixedLine, firstCharIs in *. destruct l as [|c r]; [discriminate|].
    simpl in *. destruct (Ascii.eqb_spec c "-") as [->|Hm]; [reflexivity|].
    simpl. now rewrite orb_false_r in Hl. }
  destruct (firstCharIs " " l || firstCharIs "+" l) eqn:E.
  - rewrite !filter_cons_True; [now rewrite IH| now rewrite E | now rewrite Hsame].
  - rewrite !filter_cons_False; [now apply IH| |].
    + rewrite E. simpl. tauto.
    + rewrite Hsame. simpl. tauto.
Qed.

Lemma matchPlusDigits_skip (before s : string) :
  noPlus before = true ->
  matchPlusDigits (before ++ s)%string = matchPlusDigits s.
Proof.
  induction before as [|c b IH]; [reflexivity|]. simpl.
  intros H. apply andb_true_iff in H as [Hc Hb].
  destruct (Ascii.eqb c "+"); [discriminate|]. simpl. auto.
Qed.

Lemma takeDigits_app (digits rest : string) :
  allDigits digits = true -> startsWithDigit rest = false ->
  takeDigits (digits ++ rest)%string = digits.
Proof.
  intros Hd Hr. induction digits as [|c ds IH]; simpl in *.
  - change (takeDigits rest = ""%string).
    destruct rest as [|c r]; [reflexivity|]. simpl in *. now rewrite Hr.
  - apply andb_true_iff in Hd as [Hc Hds].
    rewrite Hc. now rewrite IH.
Qed.

Lemma toNumberFrom_app (a b : string) (acc : Z) :
  toNumberFrom acc (a ++ b)%string = toNumberFrom (toNumberFrom acc a) b.
Proof.
  revert acc. induction a as [|c a IH]; intros acc; [reflexivity|].
  rewrite string_app_cons. simpl. apply IH.
Qed.

(** The decimal reading: one more digit is ten times the number plus the
    digit. *)
Lemma toNumber_snoc (digits : string) (d : ascii) :
  toNumber (digits ++ String d "")%string = 10 * toNumber digits + digitValue d.
Proof. unfold toNumber. now rewrite toNumberFrom_app. Qed.

(** On a header of the form [@@ -old +digits rest], where [old] has no plus
    sign and [rest] does not go on with a digit, the parser converts the
    string [digits]. *)
Lemma hunkNewStart_converts_digits (old digits rest : string) :
  noPlus old = true -> allDigits digits = true -> digits <> ""%string ->
  startsWithDigit rest = false ->
  hunkNewStart ("@@ -" ++ old ++ " +" ++ digits ++ rest)%string =
    Returned (toNumber digits).
Proof.
  intros Hold Hd Hne Hr. unfold hunkNewStart.
  change ("@@ -" ++ old ++ " +" ++ digits ++ rest)%string
    with ("@@ -" ++ (old ++ (" " ++ String "+" (digits ++ rest))))%string.
  rewrite (matchPlusDigits_skip "@@ -") by reflexivity.
  rewrite (matchPlusDigits_skip old) by exact Hold.
  rewrite (matchPlusDigits_skip " ") by reflexivity.
  destruct digits as [|c ds]; [contradiction|].
  simpl in Hd. apply andb_true_iff in Hd as [Hc Hds].
  rewrite string_app_cons. simpl. rewrite Hc. simpl.
  rewrite (takeDigits_app ds rest Hds Hr). reflexivity.
Qed.

Example hunkNewStart_scenario2 : hunkNewStart scenario2_header = Returned 12.
Proof. reflexivity. Qed.

End HeaderFacts.

(** ** The entries of the map *)

Section EntryFacts.
Import JsString PatchParser PatchSpec PatchEntries.

Lemma noLaterAddition_nil (k : Z) (before : list string) :
  noLaterAddition k before [].
Proof. intros mid l rest H. now destruct mid. Qed.

(** One more line after [post]: nothing changes unless it is an addition
    with the number [k]. *)
Lemma noLaterAddition_snoc (k : Z) (before post : list string) (x : string) :
  noLaterAddition k before (post ++ [x]) <->
  noLaterAddition k before post /\
  (firstCharIs "+" x = true -> nextFileLine (before ++ post) <> Some k).
Proof.
  unfold noLaterAddition. split.
  - intros H. split.
    + intros mid l rest -> Hl. apply (H mid l (rest ++ [x])); [|exact Hl].
      now rewrite <- app_assoc.
    + intros Hx. now apply (H post x []).
  - intros [Hpost Hx] mid l rest Heq Hl.
    apply snoc_split_inv in Heq as [(-> & -> & ->)|(rest' & -> & ->)].
    + now apply Hx.
    + now apply (Hpost mid l rest').
Qed.

(** The entries after the lines [pre]: the key is the number of an addition
    line, the value its position, and the line is the last addition with
    that number. *)
Lemma entries_closed_form (pre : list string) (st : ParserState) :
  runLines initial pre = Returned st ->
  forall k v, lineMap st !! k = Some v <->
    exists a l b, pre = a ++ l :: b /\ firstCharIs "+" l = true /\
      nextFileLine a = Some k /\ v = diffPosition a /\
      noLaterAddition k (a ++ [l]) b.
Proof.
  revert st. induction pre as [|x pre IH] using rev_ind; intros st.
  - simpl. intros [= <-] k v. simpl. rewrite lookup_empty. split; [discriminate|].
    intros (a & l & b & H & _). now destruct a.
  - rewrite runLines_snoc.
    destruct (runLines initial pre) as [st1|] eqn:E1; simpl; [|discriminate].
    specialize (IH st1 eq_refl).
    destruct (counters_closed_form pre st1 E1) as [Hdiff Hfile].
    intros Hstep k v.
    assert (Hold : forall k v,
      (firstCharIs "+" x = true -> fileLineIndex st1 + 1 <> k) ->
      (lineMap st1 !! k = Some v <->
       exists a l b, pre ++ [x] = a ++ l :: b /\ firstCharIs "+" l = true /\
         nextFileLine a = Some k /\ v = diffPosition a /\
         noLaterAddition k (a ++ [l]) b /\ b <> [])).
    { clear k v. intros k v Hx. rewrite IH. split.
      - intros (a & l & b & -> & Hl & Ha & Hv & Hlast).
        exists a, l, (b ++ [x]). rewrite <- app_assoc. repeat split; auto.
        + apply noLaterAddition_snoc. split; [exact Hlast|].
          intros Hadd. rewrite <- app_assoc. simpl. rewrite Hfile.
          intros [= Heq]. now apply Hx.
        + now destruct b.
      - intros (a & l & b & Heq & Hl & Ha & Hv & Hlast & Hb).
        apply snoc_split_inv in Heq as [(-> & -> & ->)|(b' & -> & ->)];
          [contradiction|].
        exists a, l, b'. repeat split; auto.
        now apply noLaterAddition_snoc in Hlast as [Hlast _]. }
    destruct (firstCharIs "+" x) eqn:Hp.
    + rewrite (reducer_addition _ _ Hp) in Hstep. injection Hstep as <-. simpl.
      destruct (decide (fileLineIndex st1 + 1 = k)) as [<-|Hne].
      * rewrite lookup_insert_eq. split.
        -- intros [= <-]. exists pre, x, []. repeat split; auto.
           apply noLaterAddition_nil.
        -- intros (a & l & b & Heq & Hl & Ha & Hv & Hlast).
           apply snoc_split_inv in Heq as [(-> & -> & ->)|(b' & -> & ->)].
           ++ now rewrite Hv, Hdiff.
           ++ apply noLaterAddition_snoc in Hlast as [_ Hlast].
              rewrite <- app_assoc in Hlast. simpl in Hlast.
              now contradiction (Hlast Hp).
      * rewrite lookup_insert_ne by done. rewrite (Hold k v) by auto. split.
        -- intros (a & l & b & Heq & Hl & Ha & Hv & Hlast & _). eauto 10.
        -- intros (a & l & b & Heq & Hl & Ha & Hv & Hlast).
           exists a, l, b. repeat split; auto. intros ->.
           apply app_inj_tail in Heq as [-> ->]. congruence.
    + rewrite (reducer_keeps_map _ _ _ Hstep Hp).
      rewrite (Hold k v) by discriminate. split.
      * intros (a & l & b & Heq & Hl & Ha & Hv & Hlast & _). eauto 10.
      * intros (a & l & b & Heq & Hl & Ha & Hv & Hlast).
        exists a, l, b. repeat split; auto. intros ->.
        apply app_inj_tail in Heq as [-> ->]. congruence.
Qed.

End EntryFacts.

Section EntryTheorems.
Import JsString PatchParser PatchSpec PatchEntries.

Lemma isDigit_value (c : ascii) : isDigit c = true -> 0 <= digitValue c <= 9.
Proof.
  unfold isDigit, digitValue. intros H. apply andb_true_iff in H as [H1 H2].
  apply Nat.leb_le in H1. apply Nat.leb_le in H2. lia.
Qed.

Lemma takeDigits_allDigits (s : string) : allDigits (takeDigits s) = true.
Proof.
  induction s as [|c r IH]; [reflexivity|]. simpl.
  destruct (isDigit c) eqn:Hc; [|reflexivity]. simpl. now rewrite Hc.
Qed.

Lemma toNumberFrom_nonneg (s : string) (acc : Z) :
  allDigits s = true -> 0 <= acc -> 0 <= toNumberFrom acc s.
Proof.
  revert acc. induction s as [|c r IH]; intros acc Hs Hacc; [exact Hacc|].
  simpl in *. apply andb_true_iff in Hs as [Hc Hr].
  apply IH; [exact Hr|]. pose proof (isDigit_value c Hc). lia.
Qed.

Lemma matchPlusDigits_shape (s m : string) :
  matchPlusDigits s = Some m -> exists r, m = String "+" (takeDigits r).
Proof.
  induction s as [|c r IH]; simpl; [discriminate|].
  destruct (Ascii.eqb_spec c "+"%char) as [->|Hc]; simpl; [|exact IH].
  destruct (startsWithDigit r); [|exact IH]. intros [= <-]. eauto.
Qed.

(** The start a header declares is never negative. *)
Lemma hunkNewStart_nonneg (line : string) (n : Z) :
  hunkNewStart line = Returned n -> 0 <= n.
Proof.
  unfold hunkNewStart. destruct (matchPlusDigits line) as [m|] eqn:E; [|discriminate].
  apply matchPlusDigits_shape in E as [r ->]. simpl. intros [= <-].
  apply toNumberFrom_nonneg; [apply takeDigits_allDigits|lia].
Qed.

Lemma nextFileLine_nonneg (pre : list string) (k : Z) :
  nextFileLine pre = Some k -> 0 <= k.
Proof.
  unfold nextFileLine, startRead, countedLines.
  destruct (currentHunk pre) as [[h|] body].
  - destruct (hunkNewStart h) as [n|] eqn:E; simpl; [|discriminate].
    intros [= <-]. apply hunkNewStart_nonneg in E. lia.
  - intros [= <-]. lia.
Qed.

Lemma diffPosition_app (a b : list string) :
  diffPosition (a ++ b) = diffPosition a + diffPosition b - 1.
Proof. unfold diffPosition. rewrite filter_app, length_app. lia. Qed.

Lemma diffPosition_ge_1 (a : list string) : 1 <= diffPosition a.
Proof. unfold diffPosition. lia. Qed.

Lemma diffPosition_addition (l : string) (b : list string) :
  firstCharIs "+" l = true -> diffPosition (l :: b) = 1 + diffPosition b.
Proof.
  intros Hl. apply addition_not_header in Hl. unfold diffPosition.
  rewrite filter_cons_True by now rewrite Hl. simpl length. lia.
Qed.

Lemma getLineMap_state (patchString : string) (lm : gmap Z Z) :
  getLineMapFromPatchString patchString = Returned lm ->
  exists st, runLines initial (split patchString) = Returned st /\
             lineMap st = lm.
Proof.
  unfold getLineMapFromPatchString.
  destruct (runLines initial (split patchString)) as [st|]; simpl; [|discriminate].
  intros [= <-]. eauto.
Qed.




(** X3. Bounds: in the map the parser returns no key is negative, and every
    position lies between 1 and the number of body lines of the patch. *)
Theorem lineMap_bounds (patchString : string) (lm : gmap Z Z) :
  getLineMapFromPatchString patchString = Returned lm ->
  forall k v, lm !! k = Some v ->
    0 <= k /\ 1 <= v <= bodyLines patchString.
Proof.
  intros Hget k v Hkv. apply getLineMap_state in Hget as (st & Hst & <-).
  apply (entries_closed_form _ _ Hst) in Hkv
    as (a & l & b & Heq & Hl & Ha & -> & _).
  split; [exact (nextFileLine_nonneg _ _ Ha)|].
  unfold bodyLines. rewrite Heq, diffPosition_app, (diffPosition_addition _ _ Hl).
  pose proof (diffPosition_ge_1 a). pose proof (diffPosition_ge_1 b). lia.
Qed.

Lemma lineMap_bounds_witness :
  getLineMapFromPatchString scenario1 = Returned {[ 2 := 2 ]} /\
  forall k v, ({[ 2 := 2 ]} : gmap Z Z) !! k = Some v ->
    0 <= k /\ 1 <= v <= bodyLines scenario1.
Proof.
  assert (H : getLineMapFromPatchString scenario1 = Returned {[ 2 := 2 ]})
    by (vm_compute; reflexivity).
  split; [exact H|]. exact (lineMap_bounds scenario1 _ H).
Defined.



End EntryTheorems.

(** ** Patches put together *)

Section ComposeFacts.
Import JsString PatchParser PatchSpec PatchEntries.

(** [split] cuts at the newline that joins two texts. *)
Lemma split_app_newline (a b : string) :
  split (a ++ nl ++ b)%string = split a ++ split b.
Proof.
  induction a as [|c r IH]; [reflexivity|].
  rewrite string_app_cons. simpl split.
  destruct (Ascii.eqb c newline); [now rewrite IH|].
  rewrite IH. pose proof (split_nonempty r) as Hne.
  destruct (split r) as [|l ls]; [contradiction|reflexivity].
Qed.

Lemma split_header (q : string) :
  matchHunkHeader q = true ->
  exists h rest, split q = h :: rest /\ matchHunkHeader h = true.
Proof.
  destruct q as [|a [|b r]]; simpl; try discriminate.
  - destruct a as [[] [] [] [] [] [] [] []]; discriminate.
  - destruct (Ascii.eqb_spec a "@"%char) as [->|Ha];
      [|destruct a as [[] [] [] [] [] [] [] []]; try discriminate;
        now contradiction Ha].
    destruct (Ascii.eqb_spec b "@"%char) as [->|Hb];
      [|destruct b as [[] [] [] [] [] [] [] []]; try discriminate;
        now contradiction Hb].
    intros _. simpl. pose proof (split_nonempty r) as Hne.
    destruct (split r) as [|l ls]; [contradiction|]. eauto.
Qed.

Lemma shifted_insert (delta k v : Z) (m m0 : gmap Z Z) :
  <[k := v + delta]> (shifted delta m ∪ m0) = shifted delta (<[k := v]> m) ∪ m0.
Proof. unfold shifted. now rewrite fmap_insert, insert_union_l. Qed.

(** A body line keeps two runs side by side. *)
Lemma reducer_follows (delta : Z) (m0 : gmap Z Z) (s1 s2 : ParserState)
  (line : string) :
  follows delta m0 s1 s2 ->
  match reducer s2 line with
  | Returned s2' =>
      exists s1', reducer s1 line = Returned s1' /\ follows delta m0 s1' s2'
  | Threw e => reducer s1 line = Threw e
  end.
Proof.
  intros (Hd & Hf & Hm).
  destruct (classify line) as [Hh|Hh Hmi Hp|Hh Hmi Hp|Hh Hmi Hp].
  - rewrite !(reducer_header _ _ Hh).
    destruct (hunkNewStart line) as [n|[]]; simpl; [|reflexivity].
    eexists. split; [reflexivity|]. repeat split; assumption.
  - rewrite !(reducer_deletion _ _ Hh Hmi).
    eexists. split; [reflexivity|]. repeat split; simpl; [lia|assumption..].
  - rewrite !(reducer_addition _ _ Hp).
    eexists. split; [reflexivity|]. repeat split; simpl; [lia|lia|].
    rewrite <- shifted_insert, Hm, Hf. f_equal. lia.
  - rewrite !(reducer_other _ _ Hh Hmi Hp).
    eexists. split; [reflexivity|]. repeat split; simpl; [lia|lia|assumption].
Qed.

Lemma runLines_follows (delta : Z) (m0 : gmap Z Z) (lines : list string)
  (s1 s2 : ParserState) :
  follows delta m0 s1 s2 ->
  match runLines s2 lines with
  | Returned s2' =>
      exists s1', runLines s1 lines = Returned s1' /\ follows delta m0 s1' s2'
  | Threw e => runLines s1 lines = Threw e
  end.
Proof.
  revert s1 s2. induction lines as [|l lines IH]; intros s1 s2 H; simpl; [eauto|].
  pose proof (reducer_follows delta m0 s1 s2 l H) as Hstep.
  destruct (reducer s2 l) as [s2'|e]; simpl.
  - destruct Hstep as (s1' & -> & H'). simpl. now apply IH.
  - now rewrite Hstep.
Qed.

(** A hunk header brings a run side by side with a run from the start,
    whatever the file line was. *)
Lemma header_follows (s1 : ParserState) (h : string) :
  matchHunkHeader h = true ->
  match reducer initial h with
  | Returned s2' =>
      exists s1', reducer s1 h = Returned s1' /\
                  follows (diffLineIndex s1) (lineMap s1) s1' s2'
  | Threw e => reducer s1 h = Threw e
  end.
Proof.
  intros Hh. rewrite !(reducer_header _ _ Hh).
  destruct (hunkNewStart h) as [n|[]]; simpl; [|reflexivity].
  eexists. split; [reflexivity|]. repeat split; simpl.
  unfold shifted. now rewrite fmap_empty, (left_id_L ∅ (∪)).
Qed.

(** X5. A newline at the end of the patch changes nothing: the empty line
    it adds moves the counters and records nothing, and a patch that makes
    the parser throw still does. *)
Theorem trailing_newline_ignored (patchString : string) :
  getLineMapFromPatchString (patchString ++ nl)%string =
  getLineMapFromPatchString patchString.
Proof.
  unfold getLineMapFromPatchString.
  change (patchString ++ nl)%string with (patchString ++ nl ++ "")%string.
  rewrite split_app_newline. simpl split. rewrite runLines_snoc.
  destruct (runLines initial (split patchString)) as [st|e]; reflexivity.
Qed.

(** X6. Hunks are parsed independently, up to the position: when [q]
    begins with a hunk header and [p] and [q] are parsed with success, the
    map of [p], a newline and [q] is the map of [q] with every position
    moved down by the number of body lines of [p], over the map of [p]; on a
    key they share the entry of [q] wins. *)
Theorem hunks_compose (p q : string) (mp mq : gmap Z Z) :
  getLineMapFromPatchString p = Returned mp ->
  getLineMapFromPatchString q = Returned mq ->
  isHunkHeaderLine q ->
  getLineMapFromPatchString (p ++ nl ++ q)%string =
    Returned (shifted (bodyLines p) mq ∪ mp).
Proof.
  intros Hp Hq Hhead.
  apply getLineMap_state in Hp as (sp & Hsp & <-).
  apply getLineMap_state in Hq as (sq & Hsq & <-).
  apply matchHunkHeader_spec, split_header in Hhead as (h & rest & Hsplit & Hh).
  unfold getLineMapFromPatchString.
  rewrite split_app_newline, runLines_app, Hsp, Hsplit. simpl.
  rewrite Hsplit in Hsq. simpl in Hsq.
  pose proof (header_follows sp h Hh) as Hstep.
  destruct (reducer initial h) as [s2|e]; simpl in Hsq; [|discriminate].
  destruct Hstep as (s1 & -> & Hfollows). simpl.
  pose proof (runLines_follows _ _ rest s1 s2 Hfollows) as Hrun.
  rewrite Hsq in Hrun. destruct Hrun as (s1' & -> & (_ & _ & Hmap)). simpl.
  rewrite Hmap. do 3 f_equal. unfold bodyLines.
  destruct (counters_closed_form _ _ Hsp) as [Hd _]. lia.
Qed.

Lemma hunks_compose_witness :
  getLineMapFromPatchString hunkA = Returned {[ 2 := 2 ]} /\
  getLineMapFromPatchString hunkB = Returned {[ 12 := 1 ]} /\
  isHunkHeaderLine hunkB /\
  getLineMapFromPatchString (hunkA ++ nl ++ hunkB)%string =
    Returned (shifted (bodyLines hunkA) {[ 12 := 1 ]} ∪ {[ 2 := 2 ]}).
Proof.
  assert (HA : getLineMapFromPatchString hunkA = Returned {[ 2 := 2 ]})
    by (vm_compute; reflexivity).
  assert (HB : getLineMapFromPatchString hunkB = Returned {[ 12 := 1 ]})
    by (vm_compute; reflexivity).
  assert (Hh : isHunkHeaderLine hunkB)
    by (apply matchHunkHeader_spec; reflexivity).
  split; [exact HA|]. split; [exact HB|]. split; [exact Hh|].
  exact (hunks_compose hunkA hunkB _ _ HA HB Hh).
Defined.

Example hunks_compose_example :
  getLineMapFromPatchString (hunkA ++ nl ++ hunkB)%string =
    Returned {[ 2 := 2; 12 := 4 ]}.
Proof. vm_compute. reflexivity. Qed.

End ComposeFacts.

(** ** The groups, in order *)

Section OrderFacts.
Import JsString Aggregator Emitter GroupOrder.

Lemma objGet_None_keys {V : Type} (o : list (string * V)) (k : string) :
  objGet o k = None <-> ~ In k (objKeys o).
Proof.
  induction o as [|[k' v] o IH]; simpl; [tauto|].
  destruct (String.eqb_spec k' k) as [->|Hne].
  - split; [discriminate|]. intros H. contradiction H. now left.
  - rewrite IH. tauto.
Qed.

Lemma objKeys_objSet_present {V : Type} (o : list (string * V)) (k : string)
  (v : V) :
  is_Some (objGet o k) -> objKeys (objSet o k v) = objKeys o.
Proof.
  induction o as [|[k' v'] o IH]; simpl.
  - intros [x H]. discriminate.
  - destruct (String.eqb k' k); [reflexivity|].
    intros H. simpl. now rewrite (IH H).
Qed.

Lemma objKeys_objSet_absent {V : Type} (o : list (string * V)) (k : string)
  (v : V) :
  objGet o k = None -> objKeys (objSet o k v) = objKeys o ++ [k].
Proof.
  intros H. rewrite (objSet_absent _ _ _ H). unfold objKeys.
  now rewrite map_app.
Qed.

Lemma objGet_of_entry {V : Type} (o : list (string * V)) (k : string) (v : V) :
  NoDup (objKeys o) -> In (k, v) o -> objGet o k = Some v.
Proof.
  induction o as [|[k' v'] o IH]; simpl; [contradiction|].
  intros Hnd Hin. apply NoDup_cons in Hnd as [Hk' Hnd].
  destruct Hin as [[= -> ->]|Hin].
  - now rewrite String.eqb_refl.
  - destruct (String.eqb_spec k' k) as [->|Hne]; [|auto].
    contradiction Hk'. apply list_elem_of_In. apply in_map_iff.
    now exists (k, v).
Qed.

Lemma firstSeen_In (l : list Z) (x : Z) : In x (firstSeen l) <-> In x l.
Proof.
  induction l as [|y l IH]; simpl; [tauto|].
  rewrite List.filter_In, IH. destruct (Z.eqb_spec x y) as [->|Hne]; simpl.
  - split; auto.
  - split; [intros [H|[H _]]; auto|intros [H|H]; auto].
Qed.

Lemma firstSeen_NoDup (l : list Z) : List.NoDup (firstSeen l).
Proof.
  induction l as [|y l IH]; simpl; constructor.
  - rewrite List.filter_In. intros [_ H]. now rewrite Z.eqb_refl in H.
  - now apply List.NoDup_filter.
Qed.

Lemma firstSeen_length (l : list Z) : (length (firstSeen l) <= length l)%nat.
Proof.
  induction l as [|y l IH]; simpl; [lia|].
  pose proof (List.filter_length_le (fun y0 => negb (Z.eqb y0 y)) (firstSeen l)).
  lia.
Qed.

Lemma filter_out_absent (l : list Z) (x : Z) :
  ~ In x l -> List.filter (fun y => negb (Z.eqb y x)) l = l.
Proof.
  induction l as [|y l IH]; simpl; [reflexivity|].
  intros H. destruct (Z.eqb_spec y x) as [->|Hne]; simpl.
  - contradiction H. now left.
  - rewrite IH; [reflexivity|]. intros Hin. apply H. now right.
Qed.

(** One more element: it is added at the end when it is new. *)
Lemma firstSeen_snoc (l : list Z) (x : Z) :
  firstSeen (l ++ [x]) =
    if decide (x ∈ l) then firstSeen l else firstSeen l ++ [x].
Proof.
  induction l as [|y l IH]; simpl.
  - destruct (decide (x ∈ [])) as [H|H]; [|reflexivity].
    now apply not_elem_of_nil in H.
  - rewrite IH. destruct (decide (x ∈ l)) as [Hin|Hnin].
    + destruct (decide (x ∈ y :: l)) as [H|H]; [reflexivity|].
      contradiction H. now apply list_elem_of_further.
    + rewrite List.filter_app. simpl.
      destruct (Z.eqb_spec x y) as [->|Hne]; simpl.
      * rewrite app_nil_r.
        destruct (decide (y ∈ y :: l)) as [H|H]; [reflexivity|].
        contradiction H. apply list_elem_of_here.
      * destruct (decide (x ∈ y :: l)) as [H|H]; [|reflexivity].
        apply elem_of_cons in H as [H|H]; contradiction.
Qed.

Lemma findingsOn_nil_iff (n : Z) (es : list LintError) :
  findingsOn n es = [] <-> ~ In n (map line es).
Proof.
  unfold findingsOn. induction es as [|e es IH]; simpl; [tauto|].
  destruct (Z.eqb (line e) n) eqn:E.
  - rewrite filter_cons_True by now rewrite E. apply Z.eqb_eq in E.
    split; [discriminate|]. intros H. contradiction H. now left.
  - rewrite filter_cons_False by (rewrite E; simpl; tauto).
    apply Z.eqb_neq in E. rewrite IH. tauto.
Qed.

(** The keys of the groups, in the order of [Object.keys]: the lines of the
    findings, each at its first occurrence. *)
Lemma reduce_keys (es : list LintError) (groups : list (string * LineGroup)) :
  reduceFrom [] es = Returned groups ->
  objKeys groups = map getKey (linesOf es).
Proof.
  unfold linesOf. revert groups.
  induction es as [|e es IH] using rev_ind; intros groups.
  - simpl. now intros [= <-].
  - rewrite reduceFrom_snoc.
    destruct (reduce_closed_form es) as (g0 & Hrun & Hget).
    rewrite Hrun. simpl. specialize (IH g0 Hrun).
    rewrite map_app. simpl map. rewrite firstSeen_snoc.
    unfold groupReducer. specialize (Hget (line e)).
    destruct (findingsOn (line e) es) as [|f fs] eqn:Ef.
    + assert (Hnin : ~ In (line e) (map line es))
        by (apply findingsOn_nil_iff; exact Ef).
      destruct (decide (line e ∈ map line es)) as [H|_];
        [now apply list_elem_of_In in H|].
      rewrite Hget. cbv beta iota. rewrite objGet_objSet_eq. intros [= <-].
      rewrite objKeys_objSet_present by (rewrite objGet_objSet_eq; eauto).
      rewrite objKeys_objSet_absent by exact Hget.
      now rewrite IH, map_app.
    + destruct (decide (line e ∈ map line es)) as [_|H].
      2:{ rewrite list_elem_of_In, <- findingsOn_nil_iff in H. congruence. }
      rewrite Hget. cbv beta iota. rewrite Hget. intros [= <-].
      rewrite objKeys_objSet_present by eauto. exact IH.
Qed.

(** The loop over the keys of the lines [ns], all of them lines of
    findings. *)
Lemma forEachKey_lines (owner name : option string)
  (groups : list (string * LineGroup)) (filename : string) (lm : gmap Z Z)
  (es : list LintError) (sha : string) (pr : Z) (ns : list Z) :
  (forall n, In n ns ->
     objGet groups (getKey n) = Some (mkLineGroup n (codeBody n es))) ->
  forEachKey owner name groups filename lm sha pr (map getKey ns) =
    Returned (flat_map (commentOn owner name filename lm es sha pr) ns).
Proof.
  induction ns as [|n ns IH]; intros Hns; simpl; [reflexivity|].
  rewrite (Hns n (or_introl eq_refl)).
  rewrite IH by (intros n' Hn'; apply Hns; now right). simpl.
  reflexivity.
Qed.

Lemma sendComments_closed_form (owner name : option string) (filename : string)
  (lm : gmap Z Z) (es : list LintError) (sha : string) (pr : Z) :
  sendComments owner name filename lm es sha pr =
    Returned (flat_map (commentOn owner name filename lm es sha pr) (linesOf es)).
Proof.
  unfold sendComments, groupLintErrorsByLine.
  destruct (reduce_closed_form es) as (groups & Hrun & Hget).
  rewrite Hrun. simpl. rewrite (reduce_keys _ _ Hrun).
  apply forEachKey_lines. intros n Hn. rewrite Hget.
  destruct (findingsOn n es) eqn:E; [|reflexivity].
  apply findingsOn_nil_iff in E. contradiction E.
  now apply firstSeen_In.
Qed.



End OrderFacts.

Section OrderTheorems.
Import JsString PatchParser PatchSpec Aggregator Emitter GroupOrder.

(** X8. The aggregation makes one group for each distinct line: the keys,
    in the order of [Object.keys], are the lines of the findings at their
    first occurrence; no key comes twice; each group holds the line of its
    key; and there are no more groups than findings. *)
Theorem groups_one_per_line_in_first_seen_order (lintErrors : list LintError) :
  exists groups, groupLintErrorsByLine lintErrors = Returned groups /\
    objKeys groups = map getKey (linesOf lintErrors) /\
    List.NoDup (objKeys groups) /\
    (forall k g, In (k, g) groups -> k = getKey (groupLine g)) /\
    (length groups <= length lintErrors)%nat.
Proof.
  destruct (reduce_closed_form lintErrors) as (groups & Hrun & Hget).
  exists groups. split; [exact Hrun|].
  pose proof (reduce_keys _ _ Hrun) as Hkeys.
  assert (Hnd : List.NoDup (objKeys groups)).
  { rewrite Hkeys. apply Finite.Injective_map_NoDup.
    - intros a b. apply getKey_inj.
    - apply firstSeen_NoDup. }
  split; [exact Hkeys|]. split; [exact Hnd|]. split.
  - intros k g Hin.
    assert (Hk : In k (objKeys groups)) by (apply in_map_iff; now exists (k, g)).
    rewrite Hkeys in Hk. apply in_map_iff in Hk as (n & <- & Hn).
    pose proof (objGet_of_entry groups _ g (proj2 (NoDup_ListNoDup _) Hnd) Hin) as Hg.
    rewrite Hget in Hg. destruct (findingsOn n lintErrors); [discriminate|].
    now injection Hg as <-.
  - transitivity (length (objKeys groups)).
    + unfold objKeys. now rewrite length_map.
    + rewrite Hkeys, length_map. unfold linesOf.
      etransitivity; [apply firstSeen_length|]. now rewrite length_map.
Qed.


End OrderTheorems.

(** ** One file, from its patch and its findings to its comments *)

Section PipelineTheorems.
Import JsString PatchParser PatchSpec Aggregator Emitter GroupOrder Pipeline.

Variables owner name : option string.

Lemma commentOn_In (filename : string) (lm : gmap Z Z) (es : list LintError)
  (sha : string) (pr n : Z) (c : CreateComment) :
  In c (commentOn owner name filename lm es sha pr n) <->
  exists pos, lm !! n = Some pos /\ truthy pos = true /\
    c = mkCreateComment owner name pr (codeBody n es) sha filename pos.
Proof.
  unfold commentOn. destruct (lm !! n) as [pos|].
  - destruct (truthy pos) eqn:Ht; simpl.
    + split; [intros [<-|[]]; eauto|]. intros (p & [= <-] & _ & ->). now left.
    + split; [contradiction|]. intros (p & [= <-] & Hp & _). congruence.
  - simpl. split; [contradiction|]. intros (p & Hp & _). discriminate.
Qed.



Lemma flat_map_filter_length {A B : Type} (w : A -> list B) (p : A -> bool)
  (l : list A) :
  (length (flat_map w (List.filter p l)) <= length (flat_map w l))%nat.
Proof.
  induction l as [|a l IH]; simpl; [lia|].
  destruct (p a); simpl; rewrite ?length_app; lia.
Qed.

Lemma flat_map_firstSeen_length {B : Type} (w : Z -> list B) (l : list Z) :
  (length (flat_map w (firstSeen l)) <= length (flat_map w l))%nat.
Proof.
  induction l as [|x l IH]; simpl; [lia|]. rewrite !length_app.
  pose proof (flat_map_filter_length w (fun y => negb (Z.eqb y x)) (firstSeen l)).
  lia.
Qed.

Lemma ungrouped_on_line (filename : string) (lm : gmap Z Z)
  (es : list LintError) (sha : string) (pr n pos : Z) :
  lm !! n = Some pos -> truthy pos = true ->
  sendComments_ungrouped owner name filename lm (findingsOn n es) sha pr =
    map (fun e => mkCreateComment owner name pr (entry e) sha filename pos)
      (findingsOn n es).
Proof.
  intros Hpos Ht. unfold sendComments_ungrouped, findingsOn.
  induction es as [|e es IH]; [reflexivity|].
  destruct (Z.eqb (line e) n) eqn:E.
  - rewrite filter_cons_True by now rewrite E. simpl. rewrite IH.
    unfold sendSingleComment_ungrouped. apply Z.eqb_eq in E.
    now rewrite E, Hpos, Ht.
  - rewrite filter_cons_False by (rewrite E; simpl; tauto). exact IH.
Qed.

Lemma comment_counts (filename : string) (lm : gmap Z Z)
  (all es : list LintError) (sha : string) (pr : Z) :
  length (flat_map (commentOn owner name filename lm all sha pr) (map line es)) =
  length (sendComments_ungrouped owner name filename lm es sha pr).
Proof.
  unfold sendComments_ungrouped.
  induction es as [|e es IH]; simpl; [reflexivity|].
  rewrite !length_app, IH. f_equal.
  unfold commentOn, sendSingleComment_ungrouped.
  destruct (lm !! line e) as [pos|]; [|reflexivity].
  now destruct (truthy pos).
Qed.

(** X13. Grouping against the revision that sends one comment for every
    finding: [sendComments] never makes more calls, and the comment it
    sends for a line has as its body the bodies of the comments that
    revision sends for the findings on that line, in the same order, each
    after a newline. *)
Theorem grouped_from_ungrouped_comments (filename : string) (lm : gmap Z Z)
  (lintErrors : list LintError) (sha : string) (pr : Z) :
  exists calls,
    sendComments owner name filename lm lintErrors sha pr = Returned calls /\
    (length calls <=
     length (sendComments_ungrouped owner name filename lm lintErrors sha pr))%nat /\
    (forall n pos,
       In n (map line lintErrors) -> lm !! n = Some pos -> truthy pos = true ->
       In (mkCreateComment owner name pr
             (String.concat ""
                (map (fun u => (nl ++ body u)%string)
                   (sendComments_ungrouped owner name filename lm
                      (findingsOn n lintErrors) sha pr)))
             sha filename pos)
          calls).
Proof.
  eexists. split; [apply sendComments_closed_form|]. split.
  - unfold linesOf.
    etransitivity; [apply flat_map_firstSeen_length|].
    now rewrite comment_counts.
  - intros n pos Hn Hpos Ht. apply in_flat_map. exists n. split.
    + now apply firstSeen_In.
    + apply commentOn_In. exists pos. repeat split; auto.
      rewrite (ungrouped_on_line _ _ _ _ _ _ _ Hpos Ht), map_map. simpl.
      reflexivity.
Qed.

End PipelineTheorems.

Import JsString PatchParser PatchSpec Aggregator Emitter GroupOrder Pipeline.


Lemma grouped_from_ungrouped_comments_witness :
  In 5 (map line scenario3_findings) /\
  scenario3_lineMap !! 5 = Some 2 /\ truthy 2 = true /\
  exists calls,
    sendComments None None "a.js" scenario3_lineMap scenario3_findings "sha" 1
      = Returned calls /\
    In (mkCreateComment None None 1
          (String.concat ""
             (map (fun u => (nl ++ body u)%string)
                (sendComments_ungrouped None None "a.js" scenario3_lineMap
                   (findingsOn 5 scenario3_findings) "sha" 1)))
          "sha" "a.js" 2)
       calls.
Proof.
  assert (H1 : In 5 (map line scenario3_findings)) by (simpl; auto).
  assert (H2 : scenario3_lineMap !! 5 = Some 2) by reflexivity.
  assert (H3 : truthy 2 = true) by reflexivity.
  split; [exact H1|]. split; [exact H2|]. split; [exact H3|].
  destruct (grouped_from_ungrouped_comments None None "a.js" scenario3_lineMap
              scenario3_findings "sha" 1) as (calls & Hrun & _ & Hin).
  exists calls. split; [exact Hrun|]. exact (Hin 5 2 H1 H2 H3).
Defined.

(** ** Start-up *)

Section StartupTheorems.
Import Startup.

Lemma isSet_spec (env : string -> option string) (varName : string) :
  isSet env varName = true <->
  exists v, env varName = Some v /\ v <> ""%string.
Proof.
  unfold isSet. destruct (env varName) as [v|].
  - destruct (String.eqb_spec v "") as [->|Hne]; simpl; split.
    + discriminate.
    + intros (v & [= <-] & Hv). contradiction.
    + eauto.
    + reflexivity.
  - split; [discriminate|]. intros (v & H & _). discriminate.
Qed.

Lemma stillMissing_empty (env : string -> option string) :
  List.filter (fun v => negb (isSet env v)) requiredVars = [] <-> allSet env.
Proof.
  unfold allSet. generalize requiredVars as vars.
  induction vars as [|x vars IH]; simpl.
  - split; [intros _ v []|reflexivity].
  - destruct (isSet env x) eqn:Hx; simpl.
    + rewrite IH. apply isSet_spec in Hx. split.
      * intros H v [<-|Hv]; auto.
      * intros H v Hv. apply H. now right.
    + split; [discriminate|]. intros H.
      assert (Hset : isSet env x = true) by (apply isSet_spec, H; now left).
      congruence.
Qed.

Lemma isReadyToStart_result (env : string -> option string) :
  snd (isReadyToStart env) = true <-> allSet env.
Proof.
  rewrite <- stillMissing_empty. unfold isReadyToStart. cbv zeta. cbn [snd].
  destruct (List.filter (fun v => negb (isSet env v)) requiredVars) as [|x l].
  - split; reflexivity.
  - split; discriminate.
Qed.

(** X14. [isReadyToStart] returns true exactly when the four required
    variables are all defined and not empty. [startApp] then authenticates
    with the user name and the password of the environment and listens, and
    sets no timer; otherwise it neither authenticates nor listens, and asks
    to be run again after 2000 ms. *)
Theorem startApp_starts_iff_all_set (env : string -> option string) :
  (snd (isReadyToStart env) = true <-> allSet env) /\
  (allSet env ->
     startApp env =
       map Log (fst (isReadyToStart env)) ++
       [Authenticate (env "GITHUB_USERNAME") (env "GITHUB_PASSWORD"); Listen]) /\
  (~ allSet env ->
     startApp env = map Log (fst (isReadyToStart env)) ++ [SetTimeout 2000]).
Proof.
  split; [apply isReadyToStart_result|].
  unfold startApp. destruct (isReadyToStart env) as [logs ready] eqn:E.
  pose proof (isReadyToStart_result env) as Hr. rewrite E in Hr. simpl in *.
  split; intros H.
  - apply Hr in H. now rewrite H.
  - destruct ready; [|reflexivity]. contradiction H. now apply Hr.
Qed.

Lemma completeEnv_allSet : allSet completeEnv.
Proof.
  intros v Hv. simpl in Hv.
  destruct Hv as [<-|[<-|[<-|[<-|[]]]]]; eexists; (split; [reflexivity|discriminate]).
Qed.

Lemma exampleEnv_not_allSet : ~ allSet exampleEnv.
Proof.
  intros H. destruct (H "GITHUB_PASSWORD") as (v & Hv & _); [simpl; auto|].
  discriminate.
Qed.

(** X15. What [isReadyToStart] writes to the log does not depend on the
    password: two environments that differ only in the (non-empty) value of
    GITHUB_PASSWORD give the same log lines and the same result. *)
Theorem isReadyToStart_log_hides_password (env : string -> option string)
  (p1 p2 : string) :
  p1 <> ""%string -> p2 <> ""%string ->
  isReadyToStart (withVar env "GITHUB_PASSWORD" p1) =
  isReadyToStart (withVar env "GITHUB_PASSWORD" p2).
Proof.
  intros H1 H2.
  assert (Hset : forall v,
    isSet (withVar env "GITHUB_PASSWORD" p1) v =
    isSet (withVar env "GITHUB_PASSWORD" p2) v).
  { intros v. unfold isSet, withVar.
    destruct (String.eqb v "GITHUB_PASSWORD"); [|reflexivity].
    destruct (String.eqb_spec p1 ""), (String.eqb_spec p2 "");
      try contradiction. reflexivity. }
  assert (Hline : forall v,
    setVarLine (withVar env "GITHUB_PASSWORD" p1) v =
    setVarLine (withVar env "GITHUB_PASSWORD" p2) v).
  { intros v. unfold setVarLine, withVar.
    now destruct (String.eqb v "GITHUB_PASSWORD"). }
  unfold isReadyToStart.
  rewrite (List.filter_ext _ _ Hset).
  rewrite (List.filter_ext (fun v => negb (isSet (withVar env "GITHUB_PASSWORD" p1) v))
             (fun v => negb (isSet (withVar env "GITHUB_PASSWORD" p2) v)))
    by (intros v; now rewrite Hset).
  now rewrite (List.map_ext _ _ Hline).
Qed.

End StartupTheorems.

Import Startup.

Lemma startApp_starts_iff_all_set_witness :
  allSet completeEnv /\
  startApp completeEnv =
    map Log (fst (isReadyToStart completeEnv)) ++
    [Authenticate (completeEnv "GITHUB_USERNAME") (completeEnv "GITHUB_PASSWORD");
     Listen].
Proof.
  split; [exact completeEnv_allSet|].
  exact (proj1 (proj2 (startApp_starts_iff_all_set completeEnv))
           completeEnv_allSet).
Defined.

Lemma isReadyToStart_log_hides_password_witness :
  "hunter2"%string <> ""%string /\ "secret"%string <> ""%string /\
  isReadyToStart (withVar exampleEnv "GITHUB_PASSWORD" "hunter2") =
  isReadyToStart (withVar exampleEnv "GITHUB_PASSWORD" "secret").
Proof.
  assert (H1 : "hunter2"%string <> ""%string) by discriminate.
  assert (H2 : "secret"%string <> ""%string) by discriminate.
  split; [exact H1|]. split; [exact H2|].
  exact (isReadyToStart_log_hides_password exampleEnv "hunter2" "secret" H1 H2).
Defined.

Example isReadyToStart_example :
  isReadyToStart exampleEnv =
    ([["Set variables:" ++ nl ++ "* GITHUB_USERNAME = bot" ++ nl
       ++ "* REPOSITORY_OWNER = me"]%string;
      ["Still waiting for following env vars to be set:";
       "GITHUB_PASSWORD, REPOSITORY_NAME"]],
     false).
Proof. reflexivity. Qed.

(** ** The endpoint, request by request *)

Section WebhookTheorems.
Import Webhook.

(** X16. The handler of server.js answers every request, with or without
    a parsed body: the response is ended once, as the last thing done. It
    calls [treatPayload] exactly for a body with a pull request and the
    action "opened", and hands it that body. *)
Theorem post_answers_every_request (payload : option Payload) :
  (exists before, post payload = before ++ [ResponseEnd] /\
                  ~ In ResponseEnd before) /\
  (treated (post payload) <->
     exists p, payload = Some p /\ is_Some (pull_request p) /\
               action p = Some "opened") /\
  (forall p, In (TreatPayload p) (post payload) -> payload = Some p).
Proof.
  destruct payload as [p|].
  - pose proof (post_treats_iff_opened p) as [Hiff _]. unfold post in *.
    destruct (hasPullRequest p && actionIs "opened" p); simpl in *.
    + split; [|split].
      * exists [TreatPayload p; ConsoleLog]. split; [reflexivity|].
        intros [H|[H|[]]]; discriminate.
      * rewrite Hiff. split; [eauto|]. now intros (q & [= <-] & H).
      * intros q [[= <-]|[H|[H|[]]]]; try discriminate. reflexivity.
    + split; [|split].
      * exists [ConsoleLog]. split; [reflexivity|]. intros [H|[]]. discriminate.
      * rewrite Hiff. split; [eauto|]. now intros (q & [= <-] & H).
      * intros q [H|[H|[]]]; discriminate.
  - unfold post. simpl. split; [|split].
    + exists [ConsoleLog]. split; [reflexivity|]. intros [H|[]]. discriminate.
    + split.
      * intros H. now apply not_treated_log_end in H.
      * intros (q & H & _). discriminate.
    + intros q [H|[H|[]]]; discriminate.
Qed.

End WebhookTheorems.

(** ** The objects an aggregation makes *)

Section StoreTheorems.
Import JsString Aggregator AggregatorStore.

Lemma groupLintErrorsByLineOn_new_objects (h : gmap ref cell) (arr : list ref)
  (es : list LintError) :
  findingsOf h arr = Some es ->
  exists h' acc d,
    groupLintErrorsByLineOn h arr = Returned (h', acc) /\
    h' !! acc = Some (DictCell d) /\
    (acc ∉ dom h) /\
    (forall r, In r (map snd d) -> (r ∉ dom h) /\ (r <> acc) /\ (r ∈ dom h')) /\
    NoDup (map snd d) /\
    (forall r, r ∈ dom h -> h' !! r = h !! r).
Proof.
  intros Hes. apply mapM_Some_1 in Hes.
  unfold groupLintErrorsByLineOn, alloc.
  set (acc := fresh (dom h)).
  assert (Hacc : acc ∉ dom h) by apply is_fresh.
  assert (Hinit : underWay h (<[acc := DictCell []]> h) acc []).
  { exists []. repeat split.
    - apply lookup_insert_eq.
    - constructor.
    - constructor.
    - constructor.
    - intros r Hr. apply lookup_insert_ne. intros Heq.
      rewrite <- Heq in Hr. contradiction.
    - exact Hacc. }
  destruct (reduceOn_refines h acc arr es Hes _ _ Hinit)
    as (h' & groups & _ & -> & (d & Hd & Hholds & Hnd & Hnew & Hframe & _)).
  exists h', acc, d. repeat split; auto.
  - rewrite List.Forall_forall in Hnew.
    apply in_map_iff in H as ([k r0] & <- & Hin). now destruct (Hnew _ Hin).
  - rewrite List.Forall_forall in Hnew.
    apply in_map_iff in H as ([k r0] & <- & Hin). now destruct (Hnew _ Hin).
  - now apply (holds_in_dom h' d groups).
Qed.

(** X18. Every call of the aggregation makes its own objects: the
    accumulator it returns and the groups in it did not exist before the
    call, no two keys share a group, and two calls on the same findings
    return different accumulators whose groups are all different objects,
    the first result being still in place after the second call. *)
Theorem aggregation_results_share_nothing (h : gmap ref cell) (arr : list ref)
  (es : list LintError) :
  findingsOf h arr = Some es ->
  exists h1 acc1 d1 h2 acc2 d2,
    groupLintErrorsByLineOn h arr = Returned (h1, acc1) /\
    groupLintErrorsByLineOn h1 arr = Returned (h2, acc2) /\
    h2 !! acc1 = Some (DictCell d1) /\
    h2 !! acc2 = Some (DictCell d2) /\
    (acc1 ∉ dom h) /\ (acc2 ∉ dom h1) /\ (acc1 <> acc2) /\
    NoDup (map snd d1) /\ NoDup (map snd d2) /\
    (forall r, In r (map snd d1) -> (r ∉ dom h) /\ ~ In r (map snd d2)) /\
    (forall r, In r (map snd d2) -> (r ∉ dom h1) /\ (r <> acc1)).
Proof.
  intros Hes.
  destruct (groupLintErrorsByLineOn_new_objects h arr es Hes)
    as (h1 & acc1 & d1 & Hrun1 & Hd1 & Hacc1 & Hnew1 & Hnd1 & Hkept1).
  pose proof (findingsOf_kept h h1 arr es Hkept1 Hes) as Hes1.
  destruct (groupLintErrorsByLineOn_new_objects h1 arr es Hes1)
    as (h2 & acc2 & d2 & Hrun2 & Hd2 & Hacc2 & Hnew2 & Hnd2 & Hkept2).
  assert (Hacc1dom : acc1 ∈ dom h1) by (apply elem_of_dom; eauto).
  exists h1, acc1, d1, h2, acc2, d2.
  repeat (split; [assumption|]).
  split; [rewrite Hkept2; assumption|].
  repeat (split; [assumption|]).
  split; [intros ->; contradiction|].
  repeat (split; [assumption|]).
  split.
  - intros r Hr. destruct (Hnew1 r Hr) as (Hr0 & _ & Hr1). split; [exact Hr0|].
    intros Hr2. destruct (Hnew2 r Hr2) as (Hnot & _). contradiction.
  - intros r Hr. destruct (Hnew2 r Hr) as (Hnot & _ & _). split; [exact Hnot|].
    intros ->. contradiction.
Qed.

End StoreTheorems.

Import Aggregator AggregatorStore.

Lemma aggregation_results_share_nothing_witness :
  findingsOf exampleStore exampleArray = Some exampleFindings /\
  exists h1 acc1 d1 h2 acc2 d2,
    groupLintErrorsByLineOn exampleStore exampleArray = Returned (h1, acc1) /\
    groupLintErrorsByLineOn h1 exampleArray = Returned (h2, acc2) /\
    h2 !! acc1 = Some (DictCell d1) /\
    h2 !! acc2 = Some (DictCell d2) /\
    (acc1 ∉ dom exampleStore) /\ (acc2 ∉ dom h1) /\ (acc1 <> acc2) /\
    NoDup (map snd d1) /\ NoDup (map snd d2) /\
    (forall r, In r (map snd d1) -> (r ∉ dom exampleStore) /\ ~ In r (map snd d2)) /\
    (forall r, In r (map snd d2) -> (r ∉ dom h1) /\ (r <> acc1)).
Proof.
  assert (H : findingsOf exampleStore exampleArray = Some exampleFindings)
    by (vm_compute; reflexivity).
  split; [exact H|].
  exact (aggregation_results_share_nothing exampleStore exampleArray
           exampleFindings H).
Defined.

(** ** The format read on its own, against the parser *)

Section FormatFacts.
Import JsString PatchParser PatchSpec UnifiedDiff.

Lemma digitValue_digitOf (c : ascii) :
  isDigit c = true -> digitValue c = digitOf c.
Proof.
  destruct c as [[] [] [] [] [] [] [] []]; try discriminate; reflexivity.
Qed.

Lemma digitOf_range (c : ascii) : 0 <= digitOf c <= 9.
Proof.
  destruct c as [[] [] [] [] [] [] [] []]; simpl; lia.
Qed.

Lemma decimalValue_nonneg (digits : string) : 0 <= decimalValue digits.
Proof.
  induction digits as [|c r IH]; simpl; [lia|].
  pose proof (digitOf_range c).
  assert (0 <= 10 ^ Z.of_nat (String.length r)) by (apply Z.pow_nonneg; lia).
  nia.
Qed.

(** The conversion of the parser gives the number the digits write. *)
Lemma toNumberFrom_decimal (digits : string) (acc : Z) :
  allDigits digits = true ->
  toNumberFrom acc digits =
    acc * 10 ^ Z.of_nat (String.length digits) + decimalValue digits.
Proof.
  revert acc. induction digits as [|c r IH]; intros acc Hd.
  - simpl. lia.
  - simpl in Hd. apply andb_true_iff in Hd as [Hc Hr].
    simpl toNumberFrom. rewrite (IH _ Hr), (digitValue_digitOf c Hc).
    simpl String.length. simpl decimalValue.
    rewrite Nat2Z.inj_succ, Z.pow_succ_r by lia. ring.
Qed.

Lemma toNumber_decimal (digits : string) :
  allDigits digits = true -> toNumber digits = decimalValue digits.
Proof.
  intros H. unfold toNumber. rewrite (toNumberFrom_decimal _ _ H). lia.
Qed.

Lemma stripPrefix_spec (p s r : string) :
  stripPrefix p s = Some r -> s = (p ++ r)%string.
Proof.
  revert s. induction p as [|a p IH]; intros s; simpl.
  - now intros [= ->].
  - destruct s as [|b s]; [discriminate|].
    destruct (Ascii.eqb_spec a b) as [->|]; [|discriminate].
    intros H. rewrite string_app_cons. now rewrite <- (IH _ H).
Qed.

Lemma spanDigits_spec (s : string) :
  s = (fst (spanDigits s) ++ snd (spanDigits s))%string /\
  allDigits (fst (spanDigits s)) = true /\
  startsWithDigit (snd (spanDigits s)) = false.
Proof.
  induction s as [|c r (IH1 & IH2 & IH3)]; simpl; [auto|].
  destruct (isDigit c) eqn:Hc; simpl.
  - rewrite Hc, IH2. rewrite string_app_cons. rewrite <- IH1. auto.
  - rewrite Hc. auto.
Qed.

Lemma noPlus_app (a b : string) :
  noPlus (a ++ b)%string = noPlus a && noPlus b.
Proof.
  induction a as [|c a IH]; [reflexivity|].
  rewrite string_app_cons. simpl. rewrite IH. now rewrite andb_assoc.
Qed.

Lemma allDigits_noPlus (s : string) : allDigits s = true -> noPlus s = true.
Proof.
  induction s as [|c r IH]; [reflexivity|]. simpl.
  intros H. apply andb_true_iff in H as [Hc Hr]. rewrite (IH Hr).
  destruct (Ascii.eqb_spec c "+"%char) as [->|]; [discriminate|reflexivity].
Qed.

Lemma readRange_spec (s start rest : string) :
  readRange s = Some (start, rest) ->
  exists len,
    s = (start ++ len ++ rest)%string /\
    allDigits start = true /\ start <> ""%string /\
    noPlus (start ++ len)%string = true /\
    startsWithDigit (len ++ rest)%string = false.
Proof.
  unfold readRange.
  destruct (spanDigits_spec s) as (Hs & Hd & Hr).
  destruct (String.eqb_spec (fst (spanDigits s)) "") as [|Hne]; [discriminate|].
  destruct (snd (spanDigits s)) as [|c r] eqn:Erest.
  - intros [= <- <-]. exists ""%string. repeat split; auto.
    rewrite noPlus_app, (allDigits_noPlus _ Hd). reflexivity.
  - destruct (Ascii.eqb_spec c ","%char) as [->|Hc].
    + destruct (spanDigits_spec r) as (Hs' & Hd' & Hr').
      destruct (String.eqb_spec (fst (spanDigits r)) ""); [discriminate|].
      intros [= <- <-].
      exists (String "," (fst (spanDigits r))). repeat split; auto.
      * rewrite Hs at 1. f_equal. rewrite string_app_cons. now rewrite <- Hs'.
      * rewrite noPlus_app, (allDigits_noPlus _ Hd). simpl.
        now apply allDigits_noPlus.
    + intros [= <- <-]. exists ""%string. repeat split; auto.
      rewrite noPlus_app, (allDigits_noPlus _ Hd). reflexivity.
Qed.

(** A line the format calls a hunk header has its new start after the one
    plus sign of the ranges. *)
Lemma readHeader_shape (line : string) (start : Z) :
  readHeader line = Some start ->
  exists old digits rest,
    line = ("@@ -" ++ old ++ " +" ++ digits ++ rest)%string /\
    noPlus old = true /\ allDigits digits = true /\ digits <> ""%string /\
    startsWithDigit rest = false /\ start = decimalValue digits.
Proof.
  unfold readHeader.
  destruct (stripPrefix "@@ -" line) as [r1|] eqn:E1; [|discriminate].
  destruct (readRange r1) as [[a r2]|] eqn:E2; [|discriminate].
  destruct (stripPrefix " +" r2) as [r3|] eqn:E3; [|discriminate].
  destruct (readRange r3) as [[c r4]|] eqn:E4; [|discriminate].
  destruct (stripPrefix " @@" r4) as [r5|]; [|discriminate].
  intros [= <-].
  apply stripPrefix_spec in E1, E3.
  apply readRange_spec in E2 as (len & -> & _ & _ & Hold & _).
  apply readRange_spec in E4 as (len' & -> & Hc & Hne & _ & Hrest).
  exists (a ++ len)%string, c, (len' ++ r4)%string.
  repeat split; auto.
  rewrite E1, E3. now rewrite !string_app_assoc.
Qed.

(** On a hunk header the parser reads the start the format gives. *)
Lemma hunkNewStart_readHeader (line : string) (start : Z) :
  readHeader line = Some start -> hunkNewStart line = Returned start.
Proof.
  intros H.
  apply readHeader_shape in H
    as (old & digits & rest & -> & Hold & Hd & Hne & Hrest & ->).
  rewrite (hunkNewStart_converts_digits old digits rest Hold Hd Hne Hrest).
  now rewrite (toNumber_decimal _ Hd).
Qed.

Lemma readHeader_matchHunkHeader (line : string) (start : Z) :
  readHeader line = Some start -> matchHunkHeader line = true.
Proof.
  unfold readHeader.
  destruct (stripPrefix "@@ -" line) as [r1|] eqn:E1; [|discriminate].
  apply stripPrefix_spec in E1 as ->. reflexivity.
Qed.

Lemma readHeader_nonneg (line : string) (start : Z) :
  readHeader line = Some start -> 0 <= start.
Proof.
  intros H. apply readHeader_shape in H as (_ & digits & _ & _ & _ & _ & _ & _ & ->).
  apply decimalValue_nonneg.
Qed.

End FormatFacts.

(** ** Counters within the integers a double holds *)

Section SafeRange.
Import JsString PatchParser PatchSpec UnifiedDiff.

Lemma safeLine_headerOk (n : nat) (line : string) :
  safeLine n line = true -> headerOk line = true.
Proof.
  unfold safeLine, headerOk.
  destruct (readHeader line) as [start|] eqn:E.
  - intros _. apply hunkNewStart_readHeader in E. unfold hunkNewStart in E.
    destruct (matchPlusDigits line); [|discriminate].
    now destruct (matchHunkHeader line).
  - intros H. apply negb_true_iff in H. now rewrite H.
Qed.

Lemma safeLines_return (n : nat) (lines : list string) (st : ParserState) :
  forallb (safeLine n) lines = true ->
  exists st', runLines st lines = Returned st'.
Proof.
  intros H. apply runLines_returns. unfold headersOk.
  apply forallb_forall. intros l Hl.
  rewrite forallb_forall in H. exact (safeLine_headerOk n l (H l Hl)).
Qed.

(** The run of a patch whose headers are within the limit: the position
    counter is at most the number of lines read, and the file line counter,
    with the lines still to read added, is below the limit. Every sum the
    parser makes is therefore an integer a double holds exactly. *)
Lemma counters_in_safe_range (n : nat) (lines : list string)
  (st : ParserState) :
  Z.of_nat n < safeIntegerLimit -> (length lines <= n)%nat ->
  forallb (safeLine n) lines = true ->
  runLines initial lines = Returned st ->
  0 <= diffLineIndex st <= Z.of_nat (length lines) /\
  -1 <= fileLineIndex st <=
    safeIntegerLimit - Z.of_nat n + Z.of_nat (length lines) - 1.
Proof.
  intros Hn. revert st. induction lines as [|x lines IH] using rev_ind;
    intros st Hlen Hsafe.
  - simpl. intros [= <-]. simpl. split; lia.
  - rewrite runLines_snoc.
    destruct (runLines initial lines) as [st1|] eqn:E1; simpl; [|discriminate].
    rewrite forallb_app in Hsafe. apply andb_true_iff in Hsafe as [Hsafe Hx].
    simpl in Hx. rewrite andb_true_r in Hx.
    rewrite length_app in *. simpl length in *.
    destruct (IH st1) as [IHd IHf]; [lia|exact Hsafe|reflexivity|].
    rewrite Nat2Z.inj_add. simpl Z.of_nat.
    unfold safeLine in Hx. destruct (readHeader x) as [start|] eqn:Ex.
    + rewrite (reducer_header _ _ (readHeader_matchHunkHeader _ _ Ex)).
      rewrite (hunkNewStart_readHeader _ _ Ex). simpl. intros [= <-]. simpl.
      apply Z.leb_le in Hx. pose proof (readHeader_nonneg _ _ Ex). split; lia.
    + apply negb_true_iff in Hx.
      destruct (classify x) as [Hh|Hh Hm Hp|Hh Hm Hp|Hh Hm Hp]; [congruence|..].
      * rewrite (reducer_deletion _ _ Hh Hm). intros [= <-]. simpl. split; lia.
      * rewrite (reducer_addition _ _ Hp). intros [= <-]. simpl. split; lia.
      * rewrite (reducer_other _ _ Hh Hm Hp). intros [= <-]. simpl. split; lia.
Qed.

(** C3. For the lines [pre] of a patch and the line after them, the
    numbers of the patch being integers a double holds (every line that
    begins with "@@" is a hunk header, and no start is so large that the
    file line could pass 2^53): the parser reads them without throwing, and
    the last line moves the counters as follows. A hunk header leaves the
    position counter where it is and sets the file line counter to the new
    start the header gives, minus 1. Any other line adds exactly 1 to the
    position counter, which is then the number of body lines seen since the
    beginning of the patch, whatever the number of hunk headers among them:
    the counter is never reset. The file line counter is kept by a line that
    begins with '-' and advanced by 1 by every other body line. Both
    counters stay within the integers a double holds. *)
Theorem counters_across_hunks (pre : list string) (line : string) :
  safeHeaders (pre ++ [line]) = true ->
  exists st st',
    runLines initial pre = Returned st /\ reducer st line = Returned st' /\
    (isHunkHeaderLine line ->
       exists start, readHeader line = Some start /\
         diffLineIndex st' = diffLineIndex st /\
         fileLineIndex st' = start - 1) /\
    (~ isHunkHeaderLine line ->
       diffLineIndex st' = diffLineIndex st + 1 /\
       diffLineIndex st' = diffPosition pre /\
       (isDeletionLine line -> fileLineIndex st' = fileLineIndex st) /\
       (~ isDeletionLine line -> fileLineIndex st' = fileLineIndex st + 1)) /\
    (0 <= diffLineIndex st' <= safeIntegerLimit /\
     -1 <= fileLineIndex st' <= safeIntegerLimit).
Proof.
  unfold safeHeaders. intros Hsafe.
  apply andb_true_iff in Hsafe as [Hn Hsafe]. apply Z.ltb_lt in Hn.
  destruct (safeLines_return _ _ initial Hsafe) as [st' Hrun].
  pose proof (counters_in_safe_range _ _ st' Hn (le_n _) Hsafe Hrun) as Hrange.
  rewrite runLines_snoc in Hrun.
  destruct (runLines initial pre) as [st|] eqn:Hpre; simpl in Hrun; [|discriminate].
  exists st, st'. split; [reflexivity|]. split; [exact Hrun|].
  destruct (counters_closed_form pre st Hpre) as [Hd _].
  rewrite forallb_app in Hsafe. apply andb_true_iff in Hsafe as [_ Hline].
  simpl in Hline. rewrite andb_true_r in Hline. unfold safeLine in Hline.
  unfold isDeletionLine. rewrite <- matchHunkHeader_spec, <- firstCharIs_spec.
  split; [|split].
  - intros Hh. destruct (readHeader line) as [start|] eqn:Eh;
      [|rewrite Hh in Hline; discriminate].
    exists start. split; [reflexivity|].
    rewrite (reducer_header _ _ Hh), (hunkNewStart_readHeader _ _ Eh) in Hrun.
    simpl in Hrun. injection Hrun as <-. simpl. auto.
  - intros Hh. apply not_true_is_false in Hh.
    destruct (classify line) as [Hh'|_ Hm Hp|_ Hm Hp|_ Hm Hp]; [congruence|..].
    + rewrite (reducer_deletion _ _ Hh Hm) in Hrun. injection Hrun as <-. simpl.
      repeat split; try lia. congruence.
    + rewrite (reducer_addition _ _ Hp) in Hrun. injection Hrun as <-. simpl.
      repeat split; try lia. congruence.
    + rewrite (reducer_other _ _ Hh Hm Hp) in Hrun. injection Hrun as <-. simpl.
      repeat split; try lia. congruence.
  - rewrite length_app in Hrange, Hn. simpl length in Hrange, Hn.
    rewrite Nat2Z.inj_add in Hrange, Hn. simpl Z.of_nat in Hrange, Hn.
    pose proof (Nat2Z.is_nonneg (length pre)). split; lia.
Qed.

(** Scenario 2: after five body lines, the header [@@ -10,2 +12,3 @@]
    leaves the position at 5 and sets the file line to 11. *)
Lemma counters_across_hunks_witness :
  safeHeaders (scenario2_firstHunk ++ [scenario2_header]) = true /\
  readHeader scenario2_header = Some 12 /\
  runLines initial scenario2_firstHunk = Returned scenario2_inHunk /\
  reducer scenario2_inHunk scenario2_header = Returned scenario2_before /\
  exists st st',
    runLines initial scenario2_firstHunk = Returned st /\
    reducer st scenario2_header = Returned st' /\
    (isHunkHeaderLine scenario2_header ->
       exists start, readHeader scenario2_header = Some start /\
         diffLineIndex st' = diffLineIndex st /\
         fileLineIndex st' = start - 1) /\
    (~ isHunkHeaderLine scenario2_header ->
       diffLineIndex st' = diffLineIndex st + 1 /\
       diffLineIndex st' = diffPosition scenario2_firstHunk /\
       (isDeletionLine scenario2_header -> fileLineIndex st' = fileLineIndex st) /\
       (~ isDeletionLine scenario2_header ->
          fileLineIndex st' = fileLineIndex st + 1)) /\
    (0 <= diffLineIndex st' <= safeIntegerLimit /\
     -1 <= fileLineIndex st' <= safeIntegerLimit).
Proof.
  assert (H : safeHeaders (scenario2_firstHunk ++ [scenario2_header]) = true)
    by (vm_compute; reflexivity).
  split; [exact H|]. split; [vm_compute; reflexivity|].
  split; [vm_compute; reflexivity|]. split; [vm_compute; reflexivity|].
  exact (counters_across_hunks scenario2_firstHunk scenario2_header H).
Defined.

End SafeRange.

(** ** Keys and line numbers of the new file *)

Section NumberingFacts.
Import JsString PatchParser PatchSpec PatchEntries UnifiedDiff.

Lemma clean_lines (lines : list string) (l : string) :
  cleanUnifiedDiff lines = true -> In l lines ->
  (exists start, readHeader l = Some start) \/
  (readHeader l = None /\ matchHunkHeader l = false /\ prefixedLine l = true).
Proof.
  unfold cleanUnifiedDiff, safeHeaders. intros H Hl.
  apply andb_true_iff in H as [H Hpre]. apply andb_true_iff in H as [H _].
  apply andb_true_iff in H as [_ Hsafe].
  rewrite forallb_forall in Hsafe, Hpre.
  specialize (Hsafe l Hl). specialize (Hpre l Hl).
  unfold safeLine, isHeader in *.
  destruct (readHeader l) as [start|]; [eauto|]. right.
  apply negb_true_iff in Hsafe. auto.
Qed.

Lemma clean_head (lines : list string) :
  cleanUnifiedDiff lines = true ->
  exists h rest start, lines = h :: rest /\ readHeader h = Some start.
Proof.
  unfold cleanUnifiedDiff. intros H.
  apply andb_true_iff in H as [H _]. apply andb_true_iff in H as [_ H].
  destruct lines as [|h rest]; [discriminate|].
  unfold isHeader in H. destruct (readHeader h) as [start|] eqn:E; [|discriminate].
  eauto.
Qed.

(** On lines that are headers or prefixed lines, the last header and the
    lines after it are the same for the parser and for the format. *)
Lemma hunkAt_currentHunk (a : list string) :
  (forall l, In l a ->
     (exists start, readHeader l = Some start) \/
     (readHeader l = None /\ matchHunkHeader l = false /\ prefixedLine l = true)) ->
  forallb prefixedLine (snd (currentHunk a)) = true /\
  match fst (currentHunk a) with
  | Some h => exists start, readHeader h = Some start /\
                hunkAt a = (Some start, snd (currentHunk a))
  | None => hunkAt a = (None, snd (currentHunk a))
  end.
Proof.
  induction a as [|l a IH]; intros Hclean; [simpl; auto|].
  destruct IH as [IHbody IHhunk]; [intros x Hx; apply Hclean; now right|].
  simpl. destruct (currentHunk a) as [[h|] body]; simpl in *.
  - split; [exact IHbody|]. destruct IHhunk as (start & Hh & ->). eauto.
  - rewrite IHhunk.
    destruct (Hclean l (or_introl eq_refl)) as [[start Hl]|(Hl & Hh & Hp)].
    + rewrite (readHeader_matchHunkHeader _ _ Hl), Hl. simpl. eauto.
    + rewrite Hh, Hl. simpl. rewrite Hp. auto.
Qed.

Lemma currentHunk_head (h : string) (rest : list string) :
  matchHunkHeader h = true -> is_Some (fst (currentHunk (h :: rest))).
Proof.
  intros Hh. simpl. destruct (currentHunk rest) as [[h'|] body]; simpl; [eauto|].
  rewrite Hh. simpl. eauto.
Qed.

(** In a clean patch the parser numbers the lines as the format does. *)
Lemma clean_numbering (lines x y : list string) :
  cleanUnifiedDiff lines = true -> lines = x ++ y -> x <> [] ->
  nextFileLine x = newFileLine x.
Proof.
  intros Hclean Heq Hx.
  destruct (clean_head _ Hclean) as (h & rest & start & Hlines & Hh).
  assert (Hxh : exists x', x = h :: x').
  { destruct x as [|x0 x']; [contradiction|]. rewrite Hlines in Heq.
    injection Heq as <- _. eauto. }
  destruct Hxh as [x' ->].
  destruct (hunkAt_currentHunk (h :: x')) as [Hbody Hhunk].
  { intros l Hl. apply (clean_lines lines); [exact Hclean|].
    rewrite Heq. apply in_or_app. now left. }
  destruct (currentHunk_head h x' (readHeader_matchHunkHeader _ _ Hh)) as [h' Hh'].
  unfold nextFileLine, newFileLine, startRead.
  destruct (currentHunk (h :: x')) as [hd body]. simpl in *. subst hd.
  destruct Hhunk as (s & Hs & ->).
  rewrite (hunkNewStart_readHeader _ _ Hs). simpl.
  now rewrite (countedLines_prefixed _ Hbody).
Qed.

End NumberingFacts.

Section NumberingTheorems.
Import JsString PatchParser PatchSpec PatchEntries UnifiedDiff.

Lemma clean_addition_prefix (lines a b : list string) (l : string) :
  cleanUnifiedDiff lines = true -> lines = a ++ l :: b ->
  firstCharIs "+" l = true -> a <> [].
Proof.
  intros Hclean Heq Hl ->. simpl in Heq.
  destruct (clean_head _ Hclean) as (h & rest & start & Hlines & Hh).
  rewrite Hlines in Heq. injection Heq as -> _.
  apply readHeader_matchHunkHeader in Hh. apply addition_not_header in Hl.
  congruence.
Qed.

Lemma clean_lastNumbered (lines a b : list string) (l : string) (k : Z) :
  cleanUnifiedDiff lines = true -> lines = a ++ l :: b ->
  (noLaterAddition k (a ++ [l]) b <-> lastNumbered k (a ++ [l]) b).
Proof.
  intros Hclean Heq. unfold noLaterAddition, lastNumbered.
  assert (Hnum : forall mid l' rest, b = mid ++ l' :: rest ->
    nextFileLine ((a ++ [l]) ++ mid) = newFileLine ((a ++ [l]) ++ mid)).
  { intros mid l' rest ->. apply (clean_numbering lines _ (l' :: rest) Hclean).
    - rewrite Heq, <- !app_assoc. reflexivity.
    - now destruct a. }
  split; intros H mid l' rest Hb Hl'.
  - rewrite <- (Hnum _ _ _ Hb). apply (H mid l' rest Hb).
    now apply firstCharIs_spec.
  - rewrite (Hnum _ _ _ Hb). apply (H mid l' rest Hb).
    now apply firstCharIs_spec.
Qed.

(** X1. For a clean patch (it begins with a hunk header, every line is a
    hunk header, a context line, an addition or a deletion, and the numbers
    are within 2^53): in the map the parser returns, [k] is mapped to [v]
    exactly when some addition line of the patch is line [k] of the new file
    and has the diff position [v], and no addition after it is line [k]: of
    two additions with one number, the later one is kept. *)
Theorem lineMap_entries_are_last_additions (patchString : string)
  (lm : gmap Z Z) :
  cleanUnifiedDiff (split patchString) = true ->
  getLineMapFromPatchString patchString = Returned lm ->
  forall k v, lm !! k = Some v <->
    exists pre line post,
      split patchString = pre ++ line :: post /\ isAdditionLine line /\
      newFileLine pre = Some k /\ v = diffPosition pre /\
      lastNumbered k (pre ++ [line]) post.
Proof.
  intros Hclean Hget k v. apply getLineMap_state in Hget as (st & Hst & <-).
  rewrite (entries_closed_form _ _ Hst k v).
  split; intros (a & l & b & Heq & Hl & Hnum & Hv & Hlast); exists a, l, b.
  - pose proof (clean_addition_prefix _ _ _ _ Hclean Heq Hl) as Ha.
    repeat split; auto.
    + now apply firstCharIs_spec.
    + now rewrite <- (clean_numbering _ a (l :: b) Hclean Heq Ha).
    + now apply (clean_lastNumbered _ _ _ _ k Hclean Heq).
  - apply firstCharIs_spec in Hl.
    pose proof (clean_addition_prefix _ _ _ _ Hclean Heq Hl) as Ha.
    repeat split; auto.
    + now rewrite (clean_numbering _ a (l :: b) Hclean Heq Ha).
    + now apply (clean_lastNumbered _ _ _ _ k Hclean Heq).
Qed.

Lemma lineMap_entries_are_last_additions_witness :
  cleanUnifiedDiff (split scenario1) = true /\
  getLineMapFromPatchString scenario1 = Returned {[ 2 := 2 ]} /\
  forall k v, ({[ 2 := 2 ]} : gmap Z Z) !! k = Some v <->
    exists pre line post,
      split scenario1 = pre ++ line :: post /\ isAdditionLine line /\
      newFileLine pre = Some k /\ v = diffPosition pre /\
      lastNumbered k (pre ++ [line]) post.
Proof.
  assert (H1 : cleanUnifiedDiff (split scenario1) = true)
    by (vm_compute; reflexivity).
  assert (H2 : getLineMapFromPatchString scenario1 = Returned {[ 2 := 2 ]})
    by (vm_compute; reflexivity).
  split; [exact H1|]. split; [exact H2|].
  exact (lineMap_entries_are_last_additions scenario1 _ H1 H2).
Defined.

(** C1. The patch that replaces the last line of a file without a final
    newline: header, deletion, the marker [\ No newline at end of file],
    addition. The addition is line 7 of the new file; the parser counts the
    marker as a line of the file and records the key 8. The keys are not the
    new-file line numbers of the additions: line 7, the addition, is no key,
    and the key 8 is no line of the patch. *)
Theorem marker_line_shifts_the_key :
  split markerPatch = markerLines /\
  getLineMapFromPatchString markerPatch = Returned {[ 8 := 3 ]} /\
  newFileLine ["@@ -7 +7 @@"; "-old"; markerLine] = Some 7 /\
  ~ (forall k, k ∈ dom ({[ 8 := 3 ]} : gmap Z Z) <->
       exists pre line post,
         split markerPatch = pre ++ line :: post /\ isAdditionLine line /\
         newFileLine pre = Some k).
Proof.
  split; [reflexivity|]. split; [vm_compute; reflexivity|].
  split; [reflexivity|]. intros H.
  assert (H1 : 7 ∈ dom ({[ 8 := 3 ]} : gmap Z Z)).
  { apply H. exists ["@@ -7 +7 @@"; "-old"; markerLine], "+new"%string, [].
    split; [reflexivity|]. split; [|reflexivity]. now exists "new"%string. }
  rewrite dom_singleton_L, elem_of_singleton in H1. discriminate.
Qed.

(** X7. On a header of the form [@@ -old +digits rest], where [old] has no
    plus sign, [rest] does not go on with a digit, and the number [digits]
    writes is at most 2^53 (so that the conversion to a number is exact),
    the parser reads that number as the new start: a '+' that comes later
    in the line (in the text after the second "@@") is not looked at. *)
Theorem hunkNewStart_of_header (old digits rest : string) :
  noPlus old = true -> allDigits digits = true -> digits <> ""%string ->
  startsWithDigit rest = false ->
  decimalValue digits <= safeIntegerLimit ->
  hunkNewStart ("@@ -" ++ old ++ " +" ++ digits ++ rest)%string =
    Returned (decimalValue digits).
Proof.
  intros Hold Hd Hne Hrest _.
  rewrite (hunkNewStart_converts_digits old digits rest Hold Hd Hne Hrest).
  now rewrite (toNumber_decimal _ Hd).
Qed.

Lemma hunkNewStart_of_header_witness :
  noPlus "10,2" = true /\ allDigits "12" = true /\ "12"%string <> ""%string /\
  startsWithDigit ",3 @@ f(a+1)" = false /\
  decimalValue "12" <= safeIntegerLimit /\
  hunkNewStart "@@ -10,2 +12,3 @@ f(a+1)" = Returned 12.
Proof.
  assert (H1 : noPlus "10,2" = true) by reflexivity.
  assert (H2 : allDigits "12" = true) by reflexivity.
  assert (H3 : "12"%string <> ""%string) by discriminate.
  assert (H4 : startsWithDigit ",3 @@ f(a+1)" = false) by reflexivity.
  assert (H5 : decimalValue "12" <= safeIntegerLimit) by (vm_compute; discriminate).
  split; [exact H1|]. split; [exact H2|]. split; [exact H3|]. split; [exact H4|].
  split; [exact H5|].
  exact (hunkNewStart_of_header "10,2" "12" ",3 @@ f(a+1)" H1 H2 H3 H4 H5).
Defined.

Example readHeader_examples :
  readHeader "@@ -1,2 +1,3 @@" = Some 1 /\
  readHeader "@@ -10,2 +12,3 @@ f(a+1)" = Some 12 /\
  readHeader "@@ -1 +1 @@" = Some 1 /\
  readHeader "@@ -0,0 +1,25 @@" = Some 1 /\
  readHeader "@@ malformed @@" = None /\
  readHeader "@@ +5 @@" = None /\
  readHeader " context" = None.
Proof. repeat split; reflexivity. Qed.

End NumberingTheorems.

(** ** The body of a group against its description *)

Section GroupBodyTheorems.
Import JsString Aggregator Emitter Pipeline GroupBody.

Lemma firstChar_app (c : ascii) (a b : string) :
  charAt0 (String c a ++ b) = Some c.
Proof. reflexivity. Qed.

(** C2. The body the aggregation composes is never the one described (the
    entries [**ruleId**: message] of the findings on the line, joined by
    single newlines, without a newline in front): the group starts from the
    empty string and every entry, the first one too, is joined to what is
    there by a newline, so the body always begins with a newline. For the
    findings [{line:3, ruleId:"A"}, {line:3, ruleId:"B"}] it is a newline,
    the 'A' entry, a newline, the 'B' entry. A finding of the parser,
    whose [ruleId] is [null], is not given the placeholder: it is printed
    as [**null**]. The revision that sends one comment for every finding
    posts the entry alone, without the newline. *)
Theorem group_body_is_not_the_described_one :
  (forall placeholder lintErrors n groups g,
     groupLintErrorsByLine lintErrors = Returned groups ->
     objGet groups (getKey n) = Some g ->
     charAt0 (groupMessage g) = Some newline /\
     groupMessage g <> describedBody placeholder n lintErrors) /\
  groupLintErrorsByLine findingsAB =
    Returned [(".3", mkLineGroup 3 (nl ++ "**A**: mA" ++ nl ++ "**B**: mB"))] /\
  describedBody "Eslint" 3 findingsAB = ("**A**: mA" ++ nl ++ "**B**: mB")%string /\
  groupLintErrorsByLine [parseError] =
    Returned [(".1", mkLineGroup 1
                 (nl ++ "**null**: Parsing error: Unexpected token"))] /\
  describedBody "Eslint" 1 [parseError] =
    "**Eslint**: Parsing error: Unexpected token"%string /\
  sendSingleComment_ungrouped None None "a.js" {[ 3 := 1 ]}
    (mkLintError (RuleString "A") "mA" 3) "sha" 7 =
    [mkCreateComment None None 7 "**A**: mA" "sha" "a.js" 1].
Proof.
  split; [|repeat split; reflexivity].
  intros placeholder es n groups g Hrun Hg.
  destruct (reduce_closed_form es) as (groups' & Hrun' & Hget).
  unfold groupLintErrorsByLine in Hrun. rewrite Hrun' in Hrun.
  injection Hrun as <-. rewrite Hget in Hg.
  destruct (findingsOn n es) as [|f fs] eqn:Ef; [discriminate|].
  injection Hg as <-. simpl groupMessage.
  rewrite codeBody_specBody by (rewrite Ef; discriminate).
  split; [reflexivity|]. intros Heq.
  apply (f_equal charAt0) in Heq. unfold nl in Heq. rewrite firstChar_app in Heq.
  unfold describedBody in Heq. rewrite Ef in Heq. simpl map in Heq.
  assert (Hstar : charAt0
            (join nl (describedEntry placeholder f ::
                      map (describedEntry placeholder) fs)) = Some "*"%char).
  { destruct (map (describedEntry placeholder) fs); reflexivity. }
  rewrite Hstar in Heq. discriminate.
Qed.

End GroupBodyTheorems.

(** ** One file, from its patch and its findings to its comments *)

Section ReviewTheorems.
Import JsString PatchParser PatchSpec PatchEntries UnifiedDiff.
Import Aggregator Emitter GroupOrder Pipeline.

Variables owner name : option string.

Lemma clean_returns (patchString : string) :
  cleanUnifiedDiff (split patchString) = true ->
  exists lm, getLineMapFromPatchString patchString = Returned lm.
Proof.
  unfold cleanUnifiedDiff, safeHeaders. intros H.
  apply andb_true_iff in H as [H _]. apply andb_true_iff in H as [H _].
  apply andb_true_iff in H as [_ H].
  destruct (safeLines_return _ _ initial H) as [st Hst].
  exists (lineMap st). unfold getLineMapFromPatchString. now rewrite Hst.
Qed.

(** X10. For a file with a clean patch (it begins with a hunk header, every
    line is a hunk header, a context line, an addition or a deletion, and
    the numbers are within 2^53) and a linter report with a first result,
    [lintContent] followed by [sendComments] returns, and: every comment it
    sends carries the file name, the commit and the pull request number it
    was given, sits at the diff position of an addition line of the patch,
    and has the body of the findings made on the line of the new file that
    this addition is; and every finding whose line is a key of the map is in
    the body of a comment sent at the position the map gives. Findings on
    other lines are left out. *)
Theorem reviewFile_comments_on_added_lines
  (executeOnText : string -> string -> EslintReport) (f : FileContent)
  (patchString : string) (es : list LintError) :
  fc_patch f = Some patchString ->
  cleanUnifiedDiff (split patchString) = true ->
  getMessages (executeOnText (fc_content f) (fc_filename f)) = Some es ->
  exists lm calls,
    getLineMapFromPatchString patchString = Returned lm /\
    reviewFile owner name executeOnText f = Returned calls /\
    (forall c, In c calls ->
       exists n pre l post,
         In n (map line es) /\
         split patchString = pre ++ l :: post /\ isAdditionLine l /\
         newFileLine pre = Some n /\
         c = mkCreateComment owner name (fc_prNumber f) (codeBody n es)
               (fc_sha f) (fc_filename f) (diffPosition pre)) /\
    (forall e, In e es -> line e ∈ dom lm ->
       exists pos, lm !! line e = Some pos /\
         In (mkCreateComment owner name (fc_prNumber f) (codeBody (line e) es)
               (fc_sha f) (fc_filename f) pos) calls).
Proof.
  intros Hpatch Hclean Hes. destruct (clean_returns _ Hclean) as [lm Hlm].
  exists lm. eexists. split; [exact Hlm|].
  unfold reviewFile, lintContent, sendCommentsOf, getLineMapFromPatch.
  rewrite Hpatch, Hlm. simpl.
  rewrite Hes. split; [apply sendComments_closed_form|].
  pose proof Hlm as Hst. apply getLineMap_state in Hst as (st & Hst & Hmap).
  split.
  - intros c Hc. apply in_flat_map in Hc as (n & Hn & Hc).
    apply commentOn_In in Hc as (pos & Hpos & _ & ->).
    rewrite <- Hmap in Hpos.
    apply (entries_closed_form _ _ Hst) in Hpos
      as (a & l & b & Heq & Hl & Ha & -> & _).
    exists n, a, l, b. repeat split; auto.
    + now apply firstSeen_In.
    + now apply firstCharIs_spec.
    + rewrite <- (clean_numbering _ a (l :: b) Hclean Heq); [exact Ha|].
      exact (clean_addition_prefix _ _ _ _ Hclean Heq Hl).
  - intros e He Hdom. apply elem_of_dom in Hdom as [pos Hpos].
    exists pos. split; [exact Hpos|].
    apply in_flat_map. exists (line e). split.
    + apply firstSeen_In. now apply in_map.
    + apply commentOn_In. exists pos. repeat split; [exact Hpos|].
      apply truthy_positive. exact (lineMap_positions _ _ Hlm _ _ Hpos).
Qed.

(** X11. Given the report of the linter, [lintContent] followed by
    [sendComments] throws exactly in three cases: the file has no patch (the
    service gives none for a binary file or a large diff); the patch has a
    line beginning with "@@" without a '+' and a digit after it; the report
    has no first result. Whatever the findings are, no comment is then sent
    for the file. In every other case it returns. *)
Theorem reviewFile_throws_iff
  (executeOnText : string -> string -> EslintReport) (f : FileContent) :
  (reviewFile owner name executeOnText f = Threw TypeError <->
     fc_patch f = None \/
     (exists patchString,
        fc_patch f = Some patchString /\ ~ headersWellFormed patchString) \/
     getMessages (executeOnText (fc_content f) (fc_filename f)) = None) /\
  ((exists calls, reviewFile owner name executeOnText f = Returned calls) <->
     (exists patchString,
        fc_patch f = Some patchString /\ headersWellFormed patchString) /\
     is_Some (getMessages (executeOnText (fc_content f) (fc_filename f)))).
Proof.
  unfold reviewFile, lintContent, sendCommentsOf, getLineMapFromPatch.
  destruct (fc_patch f) as [p|].
  2:{ simpl. split.
      - split; auto.
      - split; [intros [calls H]; discriminate|].
        intros [(p & H & _) _]. discriminate. }
  destruct (headersOk (split p)) eqn:Hok.
  - apply headersOk_spec in Hok. destruct (getLineMap_returns _ Hok) as [lm ->].
    simpl.
    destruct (getMessages (executeOnText (fc_content f) (fc_filename f)))
      as [es|].
    + rewrite sendComments_closed_form. split.
      * split; [discriminate|].
        intros [H|[(q & [= <-] & H)|H]]; [discriminate|contradiction|discriminate].
      * split; [|eauto]. intros _. split; [eauto|eauto].
    + split.
      * split; auto.
      * split; [intros [calls H]; discriminate|].
        intros [_ [x H]]. discriminate.
  - assert (Hnot : ~ headersWellFormed p).
    { rewrite <- headersOk_spec. congruence. }
    rewrite (getLineMap_throws _ Hnot). simpl. split.
    + split; [|reflexivity]. intros _. right. left. eauto.
    + split; [intros [calls H]; discriminate|].
      intros [(q & [= <-] & H) _]. contradiction.
Qed.

End ReviewTheorems.

Import JsString PatchParser PatchSpec UnifiedDiff.
Import Aggregator Emitter GroupOrder Pipeline.

Lemma reviewFile_comments_on_added_lines_witness :
  fc_patch exampleFile = Some scenario1 /\
  cleanUnifiedDiff (split scenario1) = true /\
  getMessages (exampleLinter (fc_content exampleFile) (fc_filename exampleFile))
    = Some [mkLintError (RuleString "semi") "Missing semicolon." 2;
            mkLintError RuleUndefined "m" 3] /\
  reviewFile None None exampleLinter exampleFile =
    Returned [mkCreateComment None None 1 (nl ++ "**semi**: Missing semicolon.")
                "sha" "a.js" 2] /\
  exists lm calls,
    getLineMapFromPatchString scenario1 = Returned lm /\
    reviewFile None None exampleLinter exampleFile = Returned calls /\
    (forall c, In c calls ->
       exists n pre l post,
         In n (map line [mkLintError (RuleString "semi") "Missing semicolon." 2;
                         mkLintError RuleUndefined "m" 3]) /\
         split scenario1 = pre ++ l :: post /\ isAdditionLine l /\
         newFileLine pre = Some n /\
         c = mkCreateComment None None (fc_prNumber exampleFile)
               (codeBody n [mkLintError (RuleString "semi") "Missing semicolon." 2;
                            mkLintError RuleUndefined "m" 3])
               (fc_sha exampleFile) (fc_filename exampleFile) (diffPosition pre)) /\
    (forall e,
       In e [mkLintError (RuleString "semi") "Missing semicolon." 2;
             mkLintError RuleUndefined "m" 3] ->
       line e ∈ dom lm ->
       exists pos, lm !! line e = Some pos /\
         In (mkCreateComment None None (fc_prNumber exampleFile)
               (codeBody (line e)
                  [mkLintError (RuleString "semi") "Missing semicolon." 2;
                   mkLintError RuleUndefined "m" 3])
               (fc_sha exampleFile) (fc_filename exampleFile) pos) calls).
Proof.
  assert (H0 : fc_patch exampleFile = Some scenario1) by reflexivity.
  assert (H1 : cleanUnifiedDiff (split scenario1) = true)
    by (vm_compute; reflexivity).
  assert (H2 : getMessages
                 (exampleLinter (fc_content exampleFile) (fc_filename exampleFile))
               = Some [mkLintError (RuleString "semi") "Missing semicolon." 2;
                       mkLintError RuleUndefined "m" 3]) by reflexivity.
  split; [exact H0|]. split; [exact H1|]. split; [exact H2|].
  split; [vm_compute; reflexivity|].
  exact (reviewFile_comments_on_added_lines None None exampleLinter exampleFile
           scenario1 _ H0 H1 H2).
Defined.

(** ** The endpoint of the revision *)

Section RevisionEndpoint.
Import Webhook.

(** X17. The handler of the revision with [groupLintErrorsByLine], on the
    body the JSON parser hands it: it returns, the response is ended once,
    as the last thing done, and [treatPayload] is called, with that body,
    exactly for a pull request with the action "opened" or "reopened". A
    request that server.js passes to the pipeline is passed by this handler
    too. *)
Theorem post_groupingRevision_answers_every_request (p : Payload) :
  exists before,
    post_groupingRevision (Some p) = Returned (before ++ [ResponseEnd]) /\
    ~ In ResponseEnd before /\
    (treated (before ++ [ResponseEnd]) <-> triggersProcessing p) /\
    (forall q, In (TreatPayload q) (before ++ [ResponseEnd]) -> q = p) /\
    (treated (post (Some p)) -> treated (before ++ [ResponseEnd])).
Proof.
  destruct (post_groupingRevision_treats_iff p) as (trace & Hrun & Hiff & _).
  pose proof (post_treats_iff_opened p) as [Hopened _].
  unfold post_groupingRevision in *. injection Hrun as <-.
  eexists. split; [reflexivity|]. split; [|split; [exact Hiff|split]].
  - destruct (hasPullRequest p && _); simpl.
    + intros [H|[H|[]]]; discriminate.
    + intros [].
  - destruct (hasPullRequest p && _); simpl.
    + intros q [H|[[= <-]|[H|[]]]]; try discriminate. reflexivity.
    + intros q [H|[]]. discriminate.
  - intros H. apply Hiff. apply Hopened in H as [Hpr Hact].
    split; [exact Hpr|]. now left.
Qed.

End RevisionEndpoint.
